(** * taxonomic_stats: loading, cleaning and per-phylum aggregation

    A shallow embedding of [taxonomic_stats.py].  The script is a short
    pipeline of pandas calls; each call is modelled by the function of
    the same name below, and the control flow around them ([try] /
    [except Exception], [sys.exit], [logging]) by a small monad over a
    store of data frames and a trace of library calls.  [main], which
    parses the command line and calls the four stages in a row, is not
    modelled.

    Conventions.
    - Strings are byte strings (UTF-8); their order is the byte-wise
      lexicographic one, which is the code-point order Python uses.
    - An [int64] column holds integers with 64-bit wrap-around
      arithmetic, as numpy computes them.
    - A finite [float64] value is represented by the rational it
      denotes, and an operation on such values gives the exact result
      rounded to the nearest binary64 ([binary64]).  The group mean and
      the decimal rounding are fields of [World], like the file system,
      the CSV parser and the numeric-literal grammar of
      [pd.to_numeric]; [binary64_arithmetic] says of a platform that
      they are the computations of pandas and numpy on binary64
      ([group_mean], [np_round]).
    - The phylum of an observation is text, or an integer when the
      file writes every phylum as a whole number.
    - A numeric column has one dtype.  [pd.to_numeric] returns an int64
      column when every cell is an integer and a float64 column
      otherwise, each integer then becoming the nearest binary64 (exact
      up to 2^53 in magnitude). *)

From Stdlib Require Import ZArith QArith Qabs Qround Qpower Qcanon Lia Lqa.
From Stdlib Require PrimFloat FloatOps SpecFloat Uint63.
From stdpp Require Import base option list strings pretty gmap sorting.

Local Open Scope Z_scope.

(** ** Values *)

(** A binary64 value: not-a-number, signed infinity, or a finite value. *)
Inductive float64 : Type :=
  | NaN
  | Inf (negative : bool)
  | Fin (q : Q).

(** A numeric cell: an integer (dtype int64, or uint64 for a value
    from 2^63 up) or a float64. *)
Inductive number : Type :=
  | Int64 (z : Z)
  | Float64 (f : float64).

(** A cell of a data frame as [pd.read_csv] produces it: text of an
    object column, or a number.  A missing value is the float NaN. *)
Inductive cell : Type :=
  | Str (s : string)
  | Num (n : number).

Definition NA : cell := Num (Float64 NaN).

(** [pd.isna] on a cell. *)
Definition isna (c : cell) : bool :=
  match c with
  | Num (Float64 NaN) => true
  | _ => false
  end.

(** ** 64-bit integers *)

Definition int64_min : Z := - 2 ^ 63.
Definition int64_max : Z := 2 ^ 63 - 1.

Definition in_int64 (z : Z) : Prop := int64_min <= z <= int64_max.

Definition in_int64b (z : Z) : bool :=
  (int64_min <=? z) && (z <=? int64_max).

(** Reduction of an integer to its signed 64-bit representative. *)
Definition wrap64 (z : Z) : Z := (z + 2 ^ 63) mod 2 ^ 64 - 2 ^ 63.

Definition add64 (x y : Z) : Z := wrap64 (x + y).

(** The sum of an int64 column, accumulated left to right from 0. *)
Definition sum64 (l : list Z) : Z := fold_left add64 l 0.

(** The exact sum, for comparison. *)
Definition sumZ (l : list Z) : Z := fold_right Z.add 0 l.

(** ** Casting to integer *)

(** The integer part of a rational: rounding toward zero. *)
Definition truncate (q : Q) : Z := Z.quot (Qnum q) (Zpos (Qden q)).

(** [astype(int)] on one numeric cell.  An integer beyond the int64
    range wraps around.  A non-finite float makes pandas raise
    [IntCastingNaNError]; a finite float is truncated, and a value
    beyond the int64 range yields the smallest int64 (what the x86-64
    conversion produces; numpy gives no error). *)
Definition astype_int (n : number) : option Z :=
  match n with
  | Int64 z => Some (wrap64 z)
  | Float64 (Fin q) =>
      let t := truncate q in
      Some (if in_int64b t then t else int64_min)
  | Float64 _ => None
  end.

(** ** Integers in a float64 column *)

(** The integer an integer becomes when it is stored as binary64: the
    nearest value with a 53-bit significand, ties to even. *)
Definition nearest_binary64 (z : Z) : Z :=
  let a := Z.abs z in
  if a <? 2 ^ 53 then z
  else
    let e := Z.log2 a - 52 in
    let q := a / 2 ^ e in
    let r := a mod 2 ^ e in
    let half := 2 ^ (e - 1) in
    let significand :=
      if r <? half then q
      else if half <? r then q + 1
      else if Z.even q then q else q + 1 in
    Z.sgn z * (significand * 2 ^ e).

Definition is_int64 (c : cell) : bool :=
  match c with
  | Num (Int64 _) => true
  | _ => false
  end.

(** A cell of a column that is held as float64. *)
Definition promote (c : cell) : cell :=
  match c with
  | Num (Int64 z) => Num (Float64 (Fin (inject_Z (nearest_binary64 z))))
  | _ => c
  end.

(** ** Binary64 arithmetic *)

(** The arithmetic of pandas and numpy on float64, on the rationals
    that finite values denote: an operation gives the exact result
    rounded to the nearest binary64 value, ties to even.  Zero carries
    no sign here; the script never divides by zero. *)

(** Rounding of a rational to the nearest integer, ties to even. *)
Definition rint (q : Q) : Z :=
  let n := Qnum q in
  let d := Zpos (Qden q) in
  let f := n `div` d in
  match 2 * (n `mod` d) ?= d with
  | Lt => f
  | Gt => f + 1
  | Eq => if Z.even f then f else f + 1
  end.


(** The integer [k] with [2^k <= a < 2^(k+1)], for a positive
    rational. *)
Definition ilog2 (a : Q) : Z :=
  let k := Z.log2 (Qnum a) - Z.log2 (Zpos (Qden a)) in
  if Qle_bool (2 ^ k) a then k else k - 1.

Definition negative (q : Q) : bool := Qnum q <? 0.

Definition is_zero (q : Q) : bool := Qnum q =? 0.

(** The binary64 value nearest to a rational, ties to even: 53
    significant bits, the last place no finer than 2^-1074, and
    infinity from 2^1024 on. *)
Definition binary64 (q : Q) : float64 :=
  let q := Qred q in
  if Qnum q =? 0 then Fin 0
  else
    let a := Qabs q in
    let e := Z.max (ilog2 a - 52) (-1074) in
    let r := (inject_Z (rint (a / 2 ^ e)) * 2 ^ e)%Q in
    if Qle_bool (2 ^ 1024) r then Inf (negative q)
    else Fin (Qred (if negative q then - r else r)).

Definition fopp (x : float64) : float64 :=
  match x with
  | NaN => NaN
  | Inf s => Inf (negb s)
  | Fin q => Fin (- q)
  end.

Definition fadd (x y : float64) : float64 :=
  match x, y with
  | NaN, _ | _, NaN => NaN
  | Inf s, Inf t => if Bool.eqb s t then Inf s else NaN
  | Inf s, Fin _ | Fin _, Inf s => Inf s
  | Fin p, Fin q => binary64 (p + q)
  end.

Definition fsub (x y : float64) : float64 := fadd x (fopp y).

Definition fmul (x y : float64) : float64 :=
  match x, y with
  | NaN, _ | _, NaN => NaN
  | Inf s, Inf t => Inf (xorb s t)
  | Inf s, Fin q | Fin q, Inf s =>
      if is_zero q then NaN else Inf (xorb s (negative q))
  | Fin p, Fin q => binary64 (p * q)
  end.

Definition fdiv (x y : float64) : float64 :=
  match x, y with
  | NaN, _ | _, NaN => NaN
  | Inf _, Inf _ => NaN
  | Inf s, Fin q => Inf (xorb s (negative q))
  | Fin _, Inf _ => Fin 0
  | Fin p, Fin q =>
      if is_zero q then (if is_zero p then NaN else Inf (negative p))
      else binary64 (p / q)
  end.

(** [rint]: a float rounded to an integer, ties to even. *)
Definition frint (x : float64) : float64 :=
  match x with
  | Fin q => Fin (inject_Z (rint q))
  | _ => x
  end.

(** An int64 as a float64. *)
Definition of_int64 (z : Z) : float64 := binary64 (inject_Z z).

Definition is_nan (x : float64) : bool :=
  match x with
  | NaN => true
  | _ => false
  end.

(** The mean of a group as pandas computes it for an int64 column
    ([group_mean]): the counts are converted to float64 and added up
    with Kahan's compensated summation, and the sum is divided by the
    number of rows. *)
Definition kahan_step (acc : float64 * float64) (val : float64)
  : float64 * float64 :=
  let '(sumx, compensation) := acc in
  let y := fsub val compensation in
  let t := fadd sumx y in
  let c := fsub (fsub t sumx) y in
  (t, if is_nan c then Fin 0 else c).

Definition group_mean (values : list Z) : float64 :=
  match values with
  | [] => NaN
  | _ =>
      let sumx :=
        (fold_left kahan_step (of_int64 <$> values) (Fin 0, Fin 0)).1 in
      fdiv sumx (of_int64 (Z.of_nat (length values)))
  end.

(** [round] of numpy on a float64: scale by the power of ten (which
    is a binary64 value up to 10^22), round to an integer, scale
    back. *)
Definition np_round (x : float64) (decimals : Z) : float64 :=
  if 0 <=? decimals then
    let f := of_int64 (10 ^ decimals) in
    fdiv (frint (fmul x f)) f
  else
    let f := of_int64 (10 ^ (- decimals)) in
    fmul (frint (fdiv x f)) f.

(** The value of a primitive float of Rocq, which is a binary64 of the
    machine, to compare [binary64] with. *)
Definition of_spec_float (x : SpecFloat.spec_float) : float64 :=
  match x with
  | SpecFloat.S754_zero _ => Fin 0
  | SpecFloat.S754_infinity s => Inf s
  | SpecFloat.S754_nan => NaN
  | SpecFloat.S754_finite s m e =>
      Fin (Qred ((if s then - inject_Z (Zpos m) else inject_Z (Zpos m))
                 * 2 ^ e))
  end.

Definition hardware (x : PrimFloat.float) : float64 :=
  of_spec_float (FloatOps.Prim2SF x).

Definition hardware_int (z : Z) : PrimFloat.float :=
  PrimFloat.of_uint63 (Uint63.of_Z z).

(** ** Data frames *)

(** A row maps column names to cells; a frame is its column index and
    its rows, in order. *)
Abbreviation row := (gmap string cell).

Record DataFrame : Type := {
  columns : list string;
  rows : list row }.

(** The cell of a row under a column; absent means missing. *)
Definition get (c : string) (r : row) : cell := default NA (r !! c).

(** [df[c]]: a column as a series. *)
Definition getitem (c : string) (df : DataFrame) : list cell :=
  get c <$> rows df.

(** [df[c] = series]: every row receives its new cell. *)
Definition setitem (c : string) (series : list cell) (df : DataFrame)
  : DataFrame :=
  {| columns := if decide (c ∈ columns df) then columns df
                else columns df ++ [c];
     rows := zip_with (λ r v, <[c := v]> r) (rows df) series |}.

(** A row that has a value in each column of [subset]. *)
Definition notna_on (subset : list string) (r : row) : Prop :=
  Forall (λ c, isna (get c r) = false) subset.

Global Instance notna_on_dec subset r : Decision (notna_on subset r).
Proof. unfold notna_on. apply _. Defined.

(** ** Observations and summaries *)

(** A value of the [phylum] column, the key of [groupby]: text, or an
    integer when [pd.read_csv] has inferred an int64 column (a file
    whose phyla are all written as whole numbers). *)
Inductive label : Type :=
  | Text (s : string)
  | Whole (z : Z).

Coercion Text : string >-> label.

Global Instance label_eq_dec : EqDecision label.
Proof. solve_decision. Defined.

(** The order in which [groupby] sorts its keys: integers by value,
    text by code points; in a column that holds both, integers come
    before text. *)
Definition label_le (a b : label) : Prop :=
  match a, b with
  | Whole x, Whole y => x <= y
  | Whole _, Text _ => True
  | Text _, Whole _ => False
  | Text s, Text t => String.le s t
  end.

Global Instance label_le_dec : RelDecision label_le.
Proof. intros [s|x] [t|y]; simpl; apply _. Defined.

(** A label as [to_csv] writes it. *)
Definition written (a : label) : string :=
  match a with
  | Text s => s
  | Whole z => pretty z
  end.

(** The aggregation stage works on the cleaned table: a text species,
    a phylum, an int64 count. *)
Record Observation : Type := {
  species : string;
  phylum : label;
  count : Z }.

Record PhylumSummary : Type := {
  group_phylum : label;
  total_species_count : Z;
  average_species_count : float64 }.

(** What a variable of the aggregation stage refers to: the cleaned
    table or a summary table. *)
Inductive frame : Type :=
  | ObservationTable (obs : list Observation)
  | SummaryTable (summary : list PhylumSummary).

(** ** The environment *)

(** The argument of [read_data]: a [str], a [StringIO], or any other
    object. *)
Inductive source : Type :=
  | Path (p : string)
  | StringIO (text : string)
  | Other.

Inductive exn : Type :=
  | ParserError (msg : string)
  | IntCastingNaNError
  | ValueError
  | KeyError (key : string)
  | AttributeError
  | OSError (msg : string).

(** What the script takes from its platform. *)
Record World : Type := {
  (** [os.path.exists] *)
  path_exists : string → bool;
  (** [pd.read_csv]: the parsed table, or the exception raised *)
  csv_parse : source → exn + DataFrame;
  (** the number a text cell denotes for [pd.to_numeric], NaN if none *)
  numeric_literal : string → number;
  (** the binary64 mean of an int64 group *)
  mean64 : list Z → float64;
  (** [round] of a binary64 value to a number of decimals *)
  round64 : float64 → Z → float64;
  (** writing a file: the exception raised, if any *)
  file_write : string → option exn }.


(** ** Effects *)

Definition loc := positive.

Inductive message : Type :=
  | FileNotFound (p : string)
  | InvalidInput
  | InvalidFileFormat (required : list string)
  | DataLoaded
  | ReadFailed (e : exn)
  | SummaryCalculated
  | SummaryFailed (e : exn)
  | ResultsSaved (p : string)
  | SaveFailed (e : exn)
  | ChartSaved (p : string)
  | ChartFailed (e : exn).

(** The calls the script makes into its libraries, as they happen. *)
Inductive event : Type :=
  | OsPathExists (p : string)
  | PdReadCsv (src : source)
  | Dropna (subset : list string)
  | ToNumeric
  | Astype
  | GroupbyAgg
  | Round (decimals : Z)
  | ToCsv (p : string) (table : frame)
  | PltFigure
  | PltBar (labels : list label) (heights : list Z)
  | PltDecorate
  | PltSavefig (p : string)
  | PltClose
  | LoggingError (m : message)
  | LoggingInfo (m : message).

Record state : Type := {
  heap : gmap loc frame;
  trace : list event }.

Inductive outcome (A : Type) : Type :=
  | Return (a : A)
  | Raise (e : exn)
  | Exit (code : Z).
Global Arguments Return {A} a.
Global Arguments Raise {A} e.
Global Arguments Exit {A} code.

Definition M (A : Type) : Type := state → outcome A * state.

Global Instance M_ret : MRet M := λ A a s, (Return a, s).

Global Instance M_bind : MBind M := λ A B f m s,
  match m s with
  | (Return a, s') => f a s'
  | (Raise e, s') => (Raise e, s')
  | (Exit c, s') => (Exit c, s')
  end.

Definition raise {A} (e : exn) : M A := λ s, (Raise e, s).

(** [sys.exit]: [SystemExit] is not an [Exception], so no handler of
    the script catches it. *)
Definition sys_exit {A} (code : Z) : M A := λ s, (Exit code, s).

(** [try: body except Exception as e: handler e] *)
Definition try_except {A} (body : M A) (handler : exn → M A) : M A := λ s,
  match body s with
  | (Raise e, s') => handler e s'
  | r => r
  end.

(** The state after further library calls. *)
Definition logged (evs : list event) (s : state) : state :=
  {| heap := heap s; trace := trace s ++ evs |}.

Definition emit (e : event) : M unit := λ s, (Return tt, logged [e] s).

Definition logging_error (m : message) : M unit := emit (LoggingError m).
Definition logging_info (m : message) : M unit := emit (LoggingInfo m).

(** Reading the frame a variable refers to. *)
Definition deref (l : loc) : M frame := λ s,
  match heap s !! l with
  | Some f => (Return f, s)
  | None => (Raise AttributeError, s)
  end.

(** A new frame object. *)
Definition alloc (f : frame) : M loc := λ s,
  let l := fresh (dom (heap s)) in
  (Return l, {| heap := <[l := f]> (heap s); trace := trace s |}).

(** In-place update of a frame object. *)
Definition store (l : loc) (f : frame) : M unit := λ s,
  (Return tt, {| heap := <[l := f]> (heap s); trace := trace s |}).

(** ** The loader *)

Definition required_columns : list string := ["species"; "phylum"; "count"].

Section loader.
Context (w : World).

Definition os_path_exists (p : string) : M bool :=
  emit (OsPathExists p);; mret (path_exists w p).

Definition pd_read_csv (src : source) : M DataFrame :=
  emit (PdReadCsv src);;
  match csv_parse w src with
  | inl e => raise e
  | inr df => mret df
  end.

(** [df.dropna(subset=...)]: a new frame without the rows that miss a
    value in one of the columns. *)
Definition dropna (subset : list string) (df : DataFrame) : M DataFrame :=
  emit (Dropna subset);;
  mret {| columns := columns df;
          rows := filter (notna_on subset) (rows df) |}.

(** [errors="coerce"]: text that is no number becomes NaN. *)
Definition coerce (c : cell) : cell :=
  match c with
  | Str s => Num (numeric_literal w s)
  | Num n => Num n
  end.

(** [pd.to_numeric(series, errors="coerce")]: the coerced cells as one
    numeric column. *)
Definition to_numeric (series : list cell) : M (list cell) :=
  emit ToNumeric;;
  let numbers := coerce <$> series in
  mret (if forallb is_int64 numbers then numbers else promote <$> numbers).

(** The cast of one cell: [IntCastingNaNError] on a non-finite float;
    a text cell goes through [int()], which accepts integer literals
    only and raises [ValueError] otherwise. *)
Definition astype_cell (c : cell) : exn + cell :=
  match c with
  | Num n =>
      match astype_int n with
      | Some z => inr (Num (Int64 z))
      | None => inl IntCastingNaNError
      end
  | Str s =>
      match numeric_literal w s with
      | Int64 z => inr (Num (Int64 z))
      | Float64 _ => inl ValueError
      end
  end.

Fixpoint astype_series (series : list cell) : exn + list cell :=
  match series with
  | [] => inr []
  | c :: series =>
      match astype_cell c with
      | inl e => inl e
      | inr c' =>
          match astype_series series with
          | inl e => inl e
          | inr cast => inr (c' :: cast)
          end
      end
  end.

(** [series.astype(int)]: all cells are cast, or the call raises. *)
Definition astype (series : list cell) : M (list cell) :=
  emit Astype;;
  match astype_series series with
  | inl e => raise e
  | inr cast => mret cast
  end.

Definition read_data (file_path : source) : M DataFrame :=
  try_except
    (df ← match file_path with
          | Path p =>
              found ← os_path_exists p;
              if negb found
              then logging_error (FileNotFound p);; sys_exit 1
              else pd_read_csv file_path
          | StringIO _ => pd_read_csv file_path
          | Other => logging_error InvalidInput;; sys_exit 1
          end;
     if decide (required_columns ⊆ columns df)
     then
       df ← dropna required_columns df;
       numeric ← to_numeric (getitem "count" df);
       let df := setitem "count" numeric df in
       df ← dropna ["count"] df;
       cast ← astype (getitem "count" df);
       let df := setitem "count" cast df in
       logging_info DataLoaded;;
       mret df
     else
       logging_error (InvalidFileFormat required_columns);; sys_exit 1)
    (λ e, logging_error (ReadFailed e);; sys_exit 1).

End loader.

(** ** The aggregator *)

(** The group keys of [groupby("phylum")]: the distinct phyla, sorted
    (pandas sorts group keys unless told otherwise). *)
Definition group_keys (df : list Observation) : list label :=
  merge_sort label_le (remove_dups (phylum <$> df)).

(** The [count] values of one group, in row order. *)
Definition group_counts (key : label) (df : list Observation) : list Z :=
  count <$> filter (λ o, phylum o = key) df.

Section aggregator.
Context (w : World).

(** [df.groupby("phylum", as_index=False).agg(total_species_count=
    ("count", "sum"), average_species_count=("count", "mean"))] *)
Definition agg (df : list Observation) : list PhylumSummary :=
  (λ key, {| group_phylum := key;
             total_species_count := sum64 (group_counts key df);
             average_species_count := mean64 w (group_counts key df) |})
    <$> group_keys df.

Definition groupby_agg (df : loc) : M loc :=
  table ← deref df;
  emit GroupbyAgg;;
  match table with
  | ObservationTable obs => alloc (SummaryTable (agg obs))
  | SummaryTable _ => raise (KeyError "count")
  end.

Definition getitem_average (summary : loc) : M (list float64) :=
  table ← deref summary;
  match table with
  | SummaryTable rows => mret (average_species_count <$> rows)
  | ObservationTable _ => raise (KeyError "average_species_count")
  end.

(** [series.round(decimals)]: a new series. *)
Definition round (series : list float64) (decimals : Z) : M (list float64) :=
  emit (Round decimals);;
  mret ((λ x, round64 w x decimals) <$> series).

Definition with_average (r : PhylumSummary) (x : float64) : PhylumSummary :=
  {| group_phylum := group_phylum r;
     total_species_count := total_species_count r;
     average_species_count := x |}.

(** [summary["average_species_count"] = series]: the frame object
    itself is updated. *)
Definition setitem_average (summary : loc) (series : list float64) : M unit :=
  table ← deref summary;
  match table with
  | SummaryTable rows =>
      store summary (SummaryTable (zip_with with_average rows series))
  | ObservationTable _ => raise (KeyError "average_species_count")
  end.

Definition calculate_summary_statistics (df : loc) : M loc :=
  try_except
    (summary ← groupby_agg df;
     average ← getitem_average summary;
     rounded ← round average 2;
     setitem_average summary rounded;;
     logging_info SummaryCalculated;;
     mret summary)
    (λ e, logging_error (SummaryFailed e);; sys_exit 1).

(** ** The sink *)

(** [df.to_csv(output_file, index=False)]: the rows are written in
    the order of the frame. *)
Definition to_csv (df : loc) (output_file : string) : M unit :=
  table ← deref df;
  emit (ToCsv output_file table);;
  match file_write w output_file with
  | Some e => raise e
  | None => mret tt
  end.

Definition save_results (df : loc) (output_file : string) : M unit :=
  try_except
    (to_csv df output_file;;
     logging_info (ResultsSaved output_file))
    (λ e, logging_error (SaveFailed e);; sys_exit 1).

(** [plt.bar(df["phylum"], df["total_species_count"], ...)]: one bar
    per row, in the order of the frame. *)
Definition plt_bar (df : loc) : M unit :=
  table ← deref df;
  match table with
  | SummaryTable rows =>
      emit (PltBar (group_phylum <$> rows) (total_species_count <$> rows))
  | ObservationTable _ => raise (KeyError "total_species_count")
  end.

Definition plt_savefig (output_image : string) : M unit :=
  emit (PltSavefig output_image);;
  match file_write w output_image with
  | Some e => raise e
  | None => mret tt
  end.

Definition generate_bar_chart (df : loc) (output_image : string) : M unit :=
  try_except
    (emit PltFigure;;
     plt_bar df;;
     emit PltDecorate;;
     plt_savefig output_image;;
     emit PltClose;;
     logging_info (ChartSaved output_image))
    (λ e, logging_error (ChartFailed e);; sys_exit 1).

End aggregator.

(** * Derived notions *)

(** ** The loader, row by row *)

Section loader_notions.
Context (w : World).

(** The source check passes. *)
Definition reachable (src : source) : Prop :=
  match src with
  | Path p => path_exists w p = true
  | StringIO _ => True
  | Other => False
  end.

(** The source checks pass and the input parses to [df]. *)
Inductive loads : source → DataFrame → Prop :=
  | loads_path p df :
      path_exists w p = true → csv_parse w (Path p) = inr df →
      loads (Path p) df
  | loads_stream text df :
      csv_parse w (StringIO text) = inr df → loads (StringIO text) df.

(** The calls made while resolving a source. *)
Definition probe (src : source) : list event :=
  match src with
  | Path p => [OsPathExists p; PdReadCsv src]
  | StringIO _ => [PdReadCsv src]
  | Other => []
  end.

(** The number the count of a row coerces to, on its own. *)
Definition coerced (r : row) : cell := coerce w (get "count" r).

(** A row that passes both null filters. *)
Definition valid (r : row) : Prop :=
  notna_on required_columns r ∧ isna (coerced r) = false.

Global Instance valid_dec r : Decision (valid r).
Proof. unfold valid. apply _. Defined.

(** Whether [pd.to_numeric] returns the count column as float64: some
    row with the three fields present has a count that is no integer. *)
Definition float_column (df : DataFrame) : bool :=
  negb (forallb is_int64
          (coerced <$> filter (notna_on required_columns) (rows df))).

(** The count of a row in the column [pd.to_numeric] returns. *)
Definition numeric (float : bool) (r : row) : cell :=
  if float then promote (coerced r) else coerced r.

(** The cast of a cell where it succeeds. *)
Definition cast (c : cell) : cell :=
  match astype_cell w c with
  | inr c' => c'
  | inl _ => NA
  end.

(** A row after cleaning, in a float64 or an int64 count column. *)
Definition cleaned (float : bool) (r : row) : row :=
  <["count" := cast (numeric float r)]> r.

(** The rows the loader keeps. *)
Definition kept (df : DataFrame) : list row := filter valid (rows df).

Definition cleaning : list event :=
  [Dropna required_columns; ToNumeric; Dropna ["count"]; Astype].

(** A row with a missing required field, or a count that fails the
    numeric coercion. *)
Definition invalid (r : row) : Prop :=
  (∃ c, c ∈ required_columns ∧ isna (get c r) = true) ∨
  isna (coerced r) = true.

(** A cell holding a finite number. *)
Definition finite (c : cell) : Prop :=
  match c with
  | Num (Int64 _) | Num (Float64 (Fin _)) => True
  | _ => False
  end.

(** The integer a finite number is cast to: itself, or its integer
    part. *)
Definition integer_part (n : number) : option Z :=
  match n with
  | Int64 z => Some z
  | Float64 (Fin q) => Some (truncate q)
  | Float64 _ => None
  end.

(** The calls that make up the row-level cleaning. *)
Definition row_cleaning (e : event) : Prop :=
  match e with
  | Dropna _ | ToNumeric | Astype => True
  | _ => False
  end.

(** An integer that binary64 holds exactly. *)
Definition exact_in_binary64 (z : Z) : Prop := Z.abs z <= 2 ^ 53.

(** A row whose count, if it coerces to an integer, is one that
    binary64 holds exactly. *)
Definition exact_count (r : row) : Prop :=
  ∀ z, coerced r = Num (Int64 z) → exact_in_binary64 z.

(** Two rows with the same cells outside the count column. *)
Definition same_but_count (r r' : row) : Prop :=
  ∀ c, c ≠ "count" → r' !! c = r !! c.

End loader_notions.

(** ** Sample data *)

(** Decimal digits, for a numeric-literal grammar to run examples on. *)
Definition digit (a : Ascii.ascii) : option Z :=
  let n := Z.of_N (Ascii.N_of_ascii a) in
  if (48 <=? n) && (n <=? 57) then Some (n - 48) else None.

Fixpoint digits (acc : Z) (s : string) : option Z :=
  match s with
  | EmptyString => Some acc
  | String a s => d ← digit a; digits (10 * acc + d) s
  end.

(** Unsigned decimal integers and ["inf"]; any other text is no number. *)
Definition sample_literal (s : string) : number :=
  if decide (s = "") then Float64 NaN
  else if decide (s = "inf") then Float64 (Inf false)
  else match digits 0 s with
       | Some z => Int64 z
       | None => Float64 NaN
       end.

(** A world for examples: one existing file, the arithmetic of
    binary64, writes succeeding. *)
Definition world_of (parse : source → exn + DataFrame) : World :=
  {| path_exists := λ p, bool_decide (p = "taxonomic_data.csv");
     csv_parse := parse;
     numeric_literal := sample_literal;
     mean64 := group_mean;
     round64 := np_round;
     file_write := λ _, None |}.

(** The same with every source parsing to [df]. *)
Definition sample_world (df : DataFrame) : World := world_of (λ _, inr df).

Definition record (s p : string) (c : cell) : row :=
  {[ "species" := Str s; "phylum" := Str p; "count" := c ]}.

(** A row that holds a species only. *)
Definition species_only : row :=
  {[ "species" := Str "SpeciesF"; "phylum" := NA; "count" := NA ]}.

Definition header : list string := ["species"; "phylum"; "count"].

(** The tables of the unit tests, as [pd.read_csv] parses them.  The
    test strings indent their lines, so every species starts with eight
    spaces; the last line of a string holds spaces only and gives no
    row. *)
Definition valid_data : DataFrame :=
  {| columns := header;
     rows := [record "        SpeciesA" "Firmicutes" (Num (Int64 120));
              record "        SpeciesB" "Firmicutes" (Num (Int64 80));
              record "        SpeciesC" "Bacteroidetes" (Num (Int64 200));
              record "        SpeciesD" "Bacteroidetes" (Num (Int64 50));
              record "        SpeciesE" "Proteobacteria" (Num (Int64 300))] |}.

Definition invalid_data_missing_columns : DataFrame :=
  {| columns := ["species"; "count"];
     rows := [{[ "species" := Str "        SpeciesA";
                 "count" := Num (Int64 120) ]};
              {[ "species" := Str "        SpeciesB";
                 "count" := Num (Int64 80) ]}] |}.

Definition invalid_data_missing_values : DataFrame :=
  {| columns := header;
     rows := [record "        SpeciesA" "Firmicutes" NA;
              {[ "species" := Str "        SpeciesB"; "phylum" := NA;
                 "count" := Num (Float64 (Fin 80)) ]};
              record "        SpeciesC" "Bacteroidetes"
                (Num (Float64 (Fin 200)))] |}.

Definition invalid_data_type_values : DataFrame :=
  {| columns := header;
     rows := [record "        SpeciesA" "Firmicutes" (Str "not_numeric");
              record "        SpeciesB" "Proteobacteria" (Str "80");
              record "        SpeciesC" "Bacteroidetes" (Str "200")] |}.

(** The table of [invalid_data_type_values] without its first row, and
    a parser that serves the full table under a path and this one from
    a stream. *)
Definition type_values_without_first : DataFrame :=
  {| columns := header;
     rows := [record "        SpeciesB" "Proteobacteria" (Str "80");
              record "        SpeciesC" "Bacteroidetes" (Str "200")] |}.

Definition two_tables (src : source) : exn + DataFrame :=
  match src with
  | Path _ => inr invalid_data_type_values
  | _ => inr type_values_without_first
  end.

(** A row with a count that is no number next to a row with the count
    2^53 + 1, and the latter alone. *)
Definition large_count_data : DataFrame :=
  {| columns := header;
     rows := [record "SpeciesA" "Firmicutes" (Str "not_numeric");
              record "SpeciesB" "Firmicutes" (Str "9007199254740993")] |}.

Definition large_count_alone : DataFrame :=
  {| columns := header;
     rows := [record "SpeciesB" "Firmicutes" (Str "9007199254740993")] |}.

Definition large_tables (src : source) : exn + DataFrame :=
  match src with
  | Path _ => inr large_count_data
  | _ => inr large_count_alone
  end.


(** A table with a fractional and an infinite count. *)
Definition fractional_data : DataFrame :=
  {| columns := header;
     rows := [record "SpeciesA" "Firmicutes" (Num (Float64 (Fin (7 # 2))));
              record "SpeciesB" "Firmicutes" (Num (Float64 (Fin (-5 # 2))))] |}.

Definition infinite_data : DataFrame :=
  {| columns := header;
     rows := [record "SpeciesA" "Firmicutes" (Num (Float64 (Inf false)))] |}.

Definition initial : state := {| heap := ∅; trace := [] |}.

(** The number of rows of a returned table. *)
Definition returned_rows (r : outcome DataFrame * state) : option nat :=
  match r.1 with
  | Return df => Some (length (rows df))
  | _ => None
  end.

(** ** The aggregator, as a table *)

Section aggregator_notions.
Context (w : World).

(** The summary table once the averages are rounded. *)
Definition summary_of (obs : list Observation) : list PhylumSummary :=
  (λ r, with_average r (round64 w (average_species_count r) 2))
    <$> agg w obs.

(** The state after a successful aggregation into the new object [l]. *)
Definition summarised (l : loc) (obs : list Observation) (s : state)
  : state :=
  {| heap := <[l := SummaryTable (summary_of obs)]> (heap s);
     trace := trace s ++ [GroupbyAgg; Round 2; LoggingInfo SummaryCalculated] |}.

End aggregator_notions.

(** Strictly ascending byte-wise lexicographic order of text. *)
Definition lexicographic (a b : string) : Prop := String.ltb a b = true.

(** Strictly ascending order of labels: integers by value, text
    lexicographically, integers before text. *)
Definition ascending (a b : label) : Prop :=
  match a, b with
  | Whole x, Whole y => x < y
  | Whole _, Text _ => True
  | Text _, Whole _ => False
  | Text s, Text t => lexicographic s t
  end.

(** The distinct elements of a list in the order they first occur. *)
Fixpoint first_seen (l : list label) : list label :=
  match l with
  | [] => []
  | x :: l => x :: filter (λ y, y ≠ x) (first_seen l)
  end.

(** The observations of the unit tests' valid table. *)
Definition valid_observations : list Observation :=
  [{| species := "        SpeciesA"; phylum := "Firmicutes"; count := 120 |};
   {| species := "        SpeciesB"; phylum := "Firmicutes"; count := 80 |};
   {| species := "        SpeciesC"; phylum := "Bacteroidetes"; count := 200 |};
   {| species := "        SpeciesD"; phylum := "Bacteroidetes"; count := 50 |};
   {| species := "        SpeciesE"; phylum := "Proteobacteria";
      count := 300 |}].

(** Observations from a file whose phyla are written as whole
    numbers, which [pd.read_csv] parses as an int64 column. *)
Definition numeric_observations : list Observation :=
  [{| species := "SpeciesA"; phylum := Whole 10; count := 120 |};
   {| species := "SpeciesB"; phylum := Whole 9; count := 80 |};
   {| species := "SpeciesC"; phylum := Whole 10; count := 200 |}].


(** Two observations of one phylum whose counts add up to 2^63. *)
Definition overflowing_observations : list Observation :=
  [{| species := "SpeciesA"; phylum := "Firmicutes"; count := 2 ^ 62 |};
   {| species := "SpeciesB"; phylum := "Firmicutes"; count := 2 ^ 62 |}].

(** A state in which the variable [1] refers to an observation table. *)
Definition holding (obs : list Observation) : state :=
  {| heap := {[ 1%positive := ObservationTable obs ]}; trace := [] |}.

(** * Properties *)

(** ** Running the monad *)

Lemma logged_logged evs1 evs2 s :
  logged evs2 (logged evs1 s) = logged (evs1 ++ evs2) s.
Proof. unfold logged; simpl. by rewrite (assoc_L (++)). Qed.

Lemma logged_eq evs s :
  logged evs s = {| heap := heap s; trace := trace s ++ evs |}.
Proof. done. Qed.

Lemma heap_logged evs s : heap (logged evs s) = heap s.
Proof. done. Qed.

Lemma trace_logged evs s : trace (logged evs s) = trace s ++ evs.
Proof. done. Qed.

Global Opaque logged.

Lemma bind_run {A B} (m : M A) (f : A → M B) s :
  (m ≫= f) s =
    match m s with
    | (Return a, s') => f a s'
    | (Raise e, s') => (Raise e, s')
    | (Exit c, s') => (Exit c, s')
    end.
Proof. done. Qed.

Ltac run :=
  unfold logging_error, logging_info, sys_exit, raise, emit, mret, M_ret;
  repeat (rewrite ?bind_run, ?logged_logged; simpl).

(** ** Lists *)

Lemma filter_fmap_comm {A B} (f : A → B) (P : B → Prop)
    `{!∀ y, Decision (P y)} (l : list A) :
  filter P (f <$> l) = f <$> filter (λ x, P (f x)) l.
Proof.
  induction l as [|x l IH]; [done|]. rewrite fmap_cons, !filter_cons.
  destruct (decide (P (f x))); rewrite IH; done.
Qed.

(** ** 64-bit integers *)

Lemma wrap64_in_range z : in_int64 z → wrap64 z = z.
Proof.
  unfold in_int64, int64_min, int64_max, wrap64. intros Hz.
  rewrite Z.mod_small by lia. lia.
Qed.

Lemma wrap64_range z : in_int64 (wrap64 z).
Proof.
  unfold in_int64, int64_min, int64_max, wrap64.
  pose proof (Z.mod_pos_bound (z + 2 ^ 63) (2 ^ 64)). lia.
Qed.

(** ** The loader *)

Section loader_facts.
Context (w : World).

Lemma astype_series_inr series out :
  astype_series w series = inr out → out = cast w <$> series.
Proof.
  revert out. induction series as [|c series IH]; intros out; simpl.
  - by intros [= <-].
  - unfold cast at 1. destruct (astype_cell w c) as [e|c']; [done|].
    destruct (astype_series w series) as [e|out']; [done|].
    intros [= <-]. by rewrite (IH out').
Qed.

Lemma astype_series_Forall series :
  Forall (λ c, ∃ c', astype_cell w c = inr c') series →
  ∃ out, astype_series w series = inr out.
Proof.
  induction 1 as [|c series [c' Hc] _ [out IH]]; simpl; [by eexists|].
  rewrite Hc, IH. by eexists.
Qed.

(** The cast of a column depends on the casts of its cells only. *)
Lemma astype_series_ext {A} (f g : A → cell) (l : list A) :
  (∀ x, x ∈ l → astype_cell w (f x) = astype_cell w (g x)) →
  astype_series w (f <$> l) = astype_series w (g <$> l).
Proof.
  induction l as [|x l IH]; intros Hfg; [done|].
  rewrite !fmap_cons. simpl. rewrite (Hfg x) by left.
  rewrite IH; [done|]. intros y Hy. apply Hfg. by right.
Qed.

Lemma get_insert c v (r : row) : get c (<[c := v]> r) = v.
Proof. unfold get. by rewrite lookup_insert_eq. Qed.

Lemma get_insert_ne c c' v (r : row) :
  c ≠ c' → get c' (<[c := v]> r) = get c' r.
Proof. intros. unfold get. by rewrite lookup_insert_ne. Qed.

Lemma required_count cols : required_columns ⊆ cols → "count" ∈ cols.
Proof. intros H. apply H. unfold required_columns. set_solver. Qed.

Lemma isna_promote c : isna (promote c) = isna c.
Proof. by destruct c as [s|[z|[]]]. Qed.

Lemma isna_numeric float r : isna (numeric w float r) = isna (coerced w r).
Proof. destruct float; [apply isna_promote|done]. Qed.

(** The column [pd.to_numeric] returns, row by row. *)
Lemma to_numeric_rows (l : list row) :
  (if forallb is_int64 (coerce w <$> (get "count" <$> l))
   then coerce w <$> (get "count" <$> l)
   else promote <$> (coerce w <$> (get "count" <$> l))) =
  numeric w (negb (forallb is_int64 (coerced w <$> l))) <$> l.
Proof.
  rewrite <- !list_fmap_compose.
  change (coerce w ∘ get "count") with (coerced w).
  by destruct (forallb is_int64 (coerced w <$> l)).
Qed.

(** The rows that reach the cast, with their numeric counts. *)
Lemma rows_after_coercion float (l : list row) :
  filter (notna_on ["count"])
    ((λ r, <["count" := numeric w float r]> r) <$>
       filter (notna_on required_columns) l) =
  (λ r, <["count" := numeric w float r]> r) <$> filter (valid w) l.
Proof.
  rewrite filter_fmap_comm, list_filter_filter. f_equal.
  apply list_filter_iff. intros r. unfold valid, notna_on at 1.
  rewrite Forall_singleton, get_insert, isna_numeric. tauto.
Qed.

(** The loader on an input that resolves and has the required
    columns: the valid rows are cast, or the cast raises and the
    handler exits. *)
Lemma read_data_loaded src df s :
  loads w src df → required_columns ⊆ columns df →
  read_data w src s =
    match astype_series w (numeric w (float_column w df) <$> kept w df) with
    | inr _ =>
        (Return {| columns := columns df;
                   rows := cleaned w (float_column w df) <$> kept w df |},
         logged (probe src ++ cleaning ++ [LoggingInfo DataLoaded]) s)
    | inl e =>
        (Exit 1,
         logged (probe src ++ cleaning ++ [LoggingError (ReadFailed e)]) s)
    end.
Proof.
  intros Hload Hcols.
  assert (Hcount : "count" ∈ columns df) by by apply required_count.
  assert (Hstep : ∀ s0,
    (if decide (required_columns ⊆ columns df)
     then
       df ← dropna required_columns df;
       numeric ← to_numeric w (getitem "count" df);
       let df := setitem "count" numeric df in
       df ← dropna ["count"] df;
       cast ← astype w (getitem "count" df);
       let df := setitem "count" cast df in
       logging_info DataLoaded;;
       mret df
     else
       logging_error (InvalidFileFormat required_columns);; sys_exit 1) s0 =
    match astype_series w (numeric w (float_column w df) <$> kept w df) with
    | inr _ =>
        (Return {| columns := columns df;
                   rows := cleaned w (float_column w df) <$> kept w df |},
         logged (cleaning ++ [LoggingInfo DataLoaded]) s0)
    | inl e => (Raise e, logged cleaning s0)
    end).
  { intros s0. rewrite decide_True by done.
    unfold dropna, to_numeric, astype. run. unfold getitem; simpl.
    rewrite decide_True by done. rewrite to_numeric_rows.
    fold (float_column w df). rewrite zip_with_fmap_r, zip_with_diag.
    rewrite rows_after_coercion. fold (kept w df).
    rewrite <- list_fmap_compose.
    rewrite (list_fmap_ext _ (numeric w (float_column w df)))
      by (intros; simpl; apply get_insert).
    destruct (astype_series w (numeric w (float_column w df) <$> kept w df))
      as [e|out] eqn:Hcast; run; [done|].
    apply astype_series_inr in Hcast as ->. unfold setitem; simpl.
    rewrite decide_True by done. do 2 f_equal.
    rewrite <- list_fmap_compose, zip_with_fmap_l, zip_with_fmap_r.
    rewrite zip_with_diag. f_equal. apply list_fmap_ext. intros _ r _.
    apply insert_insert_eq. }
  unfold read_data, try_except.
  destruct Hload as [p df Hp Hparse|text df Hparse];
    unfold os_path_exists, pd_read_csv; run; rewrite ?Hp; run;
    rewrite Hparse; run; rewrite Hstep;
    destruct (astype_series w _); run; done.
Qed.

Lemma read_data_missing_file p s :
  path_exists w p = false →
  read_data w (Path p) s =
    (Exit 1, logged [OsPathExists p; LoggingError (FileNotFound p)] s).
Proof.
  intros Hp. unfold read_data, try_except, os_path_exists. run.
  rewrite Hp. by run.
Qed.

Lemma read_data_other s :
  read_data w Other s = (Exit 1, logged [LoggingError InvalidInput] s).
Proof. unfold read_data, try_except. by run. Qed.

Lemma loads_iff src df :
  loads w src df ↔ reachable w src ∧ csv_parse w src = inr df.
Proof.
  split.
  - by destruct 1.
  - destruct src; simpl; intros [? ?]; [by constructor..|done].
Qed.

Lemma read_data_parse_error src e s :
  reachable w src → csv_parse w src = inl e →
  read_data w src s =
    (Exit 1, logged (probe src ++ [LoggingError (ReadFailed e)]) s).
Proof.
  intros Hsrc Hparse. unfold read_data, try_except.
  destruct src as [p|text|]; simpl in Hsrc; [| |done];
    unfold os_path_exists, pd_read_csv; run; rewrite ?Hsrc; run;
    rewrite Hparse; by run.
Qed.

Lemma read_data_schema_error src df s :
  loads w src df → ¬ required_columns ⊆ columns df →
  read_data w src s =
    (Exit 1,
     logged (probe src ++
             [LoggingError (InvalidFileFormat required_columns)]) s).
Proof.
  intros Hload Hcols. unfold read_data, try_except.
  destruct Hload as [p df Hp Hparse|text df Hparse];
    unfold os_path_exists, pd_read_csv; run; rewrite ?Hp; run;
    rewrite Hparse; run; rewrite decide_False by done; by run.
Qed.

(** A returned table comes from the last branch of the loader. *)
Lemma read_data_Return_inv src s out s' :
  read_data w src s = (Return out, s') →
  ∃ df, loads w src df ∧ required_columns ⊆ columns df ∧
        (∃ series,
           astype_series w (numeric w (float_column w df) <$> kept w df) =
             inr series) ∧
        out = {| columns := columns df;
                 rows := cleaned w (float_column w df) <$> kept w df |} ∧
        s' = logged (probe src ++ cleaning ++ [LoggingInfo DataLoaded]) s.
Proof.
  intros Hrun.
  assert (Hsrc : reachable w src).
  { destruct src as [p|text|]; simpl; [|done|].
    - destruct (path_exists w p) eqn:Hp; [done|].
      by rewrite read_data_missing_file in Hrun.
    - by rewrite read_data_other in Hrun. }
  destruct (csv_parse w src) as [e|df] eqn:Hparse.
  { by rewrite (read_data_parse_error src e) in Hrun. }
  assert (Hload : loads w src df) by by apply loads_iff.
  destruct (decide (required_columns ⊆ columns df)) as [Hcols|Hcols].
  - rewrite (read_data_loaded src df) in Hrun by done.
    destruct (astype_series w _) as [e|series] eqn:Hcast; [done|].
    injection Hrun as <- <-. exists df. eauto 10.
  - by rewrite (read_data_schema_error src df) in Hrun.
Qed.

End loader_facts.

(** ** The loader: what it returns *)

(** 2^53 + 1 has no binary64 of its own; neither has 2^63 - 1. *)
Example nearest_binary64_values :
  nearest_binary64 9007199254740993 = 9007199254740992 ∧
  nearest_binary64 (-9007199254740995) = -9007199254740996 ∧
  nearest_binary64 1000000000000000001 = 1000000000000000000 ∧
  nearest_binary64 9223372036854775807 = 9223372036854775808.
Proof. by vm_compute. Qed.

Section loader_results.
Context (w : World).

Lemma astype_cell_inr c c' :
  astype_cell w c = inr c' → ∃ z, c' = Num (Int64 z).
Proof.
  destruct c as [s|n]; simpl.
  - destruct (numeric_literal w s); [|done]. intros [= <-]. by eexists.
  - destruct (astype_int n); [|done]. intros [= <-]. by eexists.
Qed.

Lemma astype_series_cells series out c :
  astype_series w series = inr out → c ∈ series →
  ∃ z, astype_cell w c = inr (Num (Int64 z)).
Proof.
  revert out. induction series as [|c0 series IH]; intros out; simpl.
  - by intros _ ?%elem_of_nil.
  - destruct (astype_cell w c0) as [e|c0'] eqn:Hc0; [done|].
    destruct (astype_series w series) as [e|out']; [done|].
    intros _ [->|Hin]%elem_of_cons; [|by eapply IH].
    destruct (astype_cell_inr _ _ Hc0) as [z ->]. by exists z.
Qed.

Lemma valid_required r c :
  valid w r → c ∈ required_columns → isna (get c r) = false.
Proof.
  intros [Hr _] Hc. unfold notna_on in Hr. rewrite Forall_forall in Hr.
  by apply Hr.
Qed.

Lemma valid_iff_not_invalid r : valid w r ↔ ¬ invalid w r.
Proof.
  unfold valid, invalid, notna_on. rewrite Forall_forall. split.
  - intros [Hr Hc] [(c & Hin & Hna)|Hna]; [|congruence].
    specialize (Hr c Hin). congruence.
  - intros Hinv. split.
    + intros c Hin. destruct (isna (get c r)) eqn:Hna; [|done].
      destruct Hinv. left. eauto.
    + destruct (isna (coerced w r)) eqn:Hna; [|done]. destruct Hinv. by right.
Qed.

Lemma cleaned_same_but_count float r : same_but_count r (cleaned w float r).
Proof. intros c Hc. unfold cleaned. by rewrite lookup_insert_ne. Qed.

Lemma get_cleaned_count float r :
  get "count" (cleaned w float r) = cast w (numeric w float r).
Proof. apply get_insert. Qed.

Lemma get_cleaned_other float r c :
  c ≠ "count" → get c (cleaned w float r) = get c r.
Proof. intros. unfold cleaned. by apply get_insert_ne. Qed.

(** A finite number in range is cast to its integer part. *)
Lemma cast_finite n z :
  integer_part n = Some z → in_int64 z → cast w (Num n) = Num (Int64 z).
Proof.
  unfold cast. simpl.
  destruct n as [z'|[|b|q]]; simpl; intros [= <-] Hz;
    [by rewrite wrap64_in_range|].
  unfold in_int64, int64_min, int64_max in Hz.
  unfold in_int64b, int64_min, int64_max.
  by rewrite andb_true_intro by (split; apply Z.leb_le; lia).
Qed.

Lemma finite_promote c : finite c → finite (promote c).
Proof. by destruct c as [s|[z|[|b|q]]]. Qed.

Lemma finite_castable c : finite c → ∃ c', astype_cell w c = inr c'.
Proof.
  destruct c as [s|[z|[|b|q]]]; simpl; try done; intros _; by eexists.
Qed.

Lemma finite_numeric float r : finite (coerced w r) → finite (numeric w float r).
Proof. destruct float; [apply finite_promote|done]. Qed.

(** Integers that binary64 holds exactly are unchanged by a float64
    column. *)
Lemma nearest_binary64_exact z : exact_in_binary64 z → nearest_binary64 z = z.
Proof.
  unfold exact_in_binary64, nearest_binary64. intros Hz.
  destruct (Z.ltb_spec (Z.abs z) (2 ^ 53)) as [|Hge]; [done|].
  assert (Z.abs z = 2 ^ 53) as Habs by lia. rewrite Habs.
  destruct (Z.abs_eq_or_opp z) as [Hz'|Hz'].
  - rewrite <- Hz', Habs. reflexivity.
  - assert (z = - 2 ^ 53) as -> by lia. reflexivity.
Qed.

Lemma truncate_inject_Z z : truncate (inject_Z z) = z.
Proof. unfold truncate; simpl. apply Z.quot_1_r. Qed.

Lemma astype_cell_promote_exact c :
  (∀ z, c = Num (Int64 z) → exact_in_binary64 z) →
  astype_cell w (promote c) = astype_cell w c.
Proof.
  destruct c as [s|[z|f]]; try done. intros Hz. simpl.
  specialize (Hz z eq_refl). rewrite nearest_binary64_exact by done.
  rewrite truncate_inject_Z.
  unfold exact_in_binary64 in Hz.
  rewrite wrap64_in_range by (unfold in_int64, int64_min, int64_max; lia).
  unfold in_int64b, int64_min, int64_max.
  by rewrite andb_true_intro by (split; apply Z.leb_le; lia).
Qed.

Lemma astype_cell_numeric_exact float r :
  exact_count w r →
  astype_cell w (numeric w float r) = astype_cell w (coerced w r).
Proof. destruct float; [apply astype_cell_promote_exact|done]. Qed.

Lemma cleaned_exact float r :
  exact_count w r → cleaned w float r = cleaned w false r.
Proof.
  intros Hr. unfold cleaned, cast.
  by rewrite (astype_cell_numeric_exact float r Hr).
Qed.

(** The loader returns when every valid row has a finite count. *)
Lemma read_data_returns src df s :
  loads w src df → required_columns ⊆ columns df →
  (∀ r, r ∈ rows df → valid w r → finite (coerced w r)) →
  read_data w src s =
    (Return {| columns := columns df;
               rows := cleaned w (float_column w df) <$> kept w df |},
     logged (probe src ++ cleaning ++ [LoggingInfo DataLoaded]) s).
Proof.
  intros Hload Hcols Hfin. rewrite (read_data_loaded w src df) by done.
  destruct (astype_series_Forall w
              (numeric w (float_column w df) <$> kept w df)) as [out ->];
    [|done].
  rewrite Forall_fmap, Forall_forall. intros r [Hr Hin]%list_elem_of_filter.
  apply finite_castable, finite_numeric. by apply Hfin.
Qed.

End loader_results.

(** ** The unit tests of the loader *)

(** [test_read_data_valid], [test_read_data_missing_values] and
    [test_read_data_type_values]: 5, 1 and 2 rows remain. *)
Example test_read_data_rows :
  returned_rows (read_data (sample_world valid_data) (StringIO "") initial) =
    Some 5%nat ∧
  returned_rows (read_data (sample_world invalid_data_missing_values)
                   (StringIO "") initial) = Some 1%nat ∧
  returned_rows (read_data (sample_world invalid_data_type_values)
                   (StringIO "") initial) = Some 2%nat.
Proof. by vm_compute. Qed.

(** [test_read_data_missing_columns]: [SystemExit]. *)
Example test_read_data_missing_columns :
  (read_data (sample_world invalid_data_missing_columns) (StringIO "")
     initial).1 = Exit 1.
Proof. by vm_compute. Qed.

(** ** The loader: claims *)

(** C2. Every row of a table that [read_data] returns has a species, a
    phylum and a count (none of them null), and its count is an
    integer. *)
Theorem read_data_rows_are_observations w src s out s' :
  read_data w src s = (Return out, s') →
  ∀ r, r ∈ rows out →
    isna (get "species" r) = false ∧
    isna (get "phylum" r) = false ∧
    isna (get "count" r) = false ∧
    ∃ z, get "count" r = Num (Int64 z).
Proof.
  intros (df & _ & _ & [series Hcast] & -> & _)%read_data_Return_inv r.
  simpl. intros (r0 & -> & [Hvalid Hin]%list_elem_of_filter)%list_elem_of_fmap.
  rewrite !get_cleaned_other by done. rewrite get_cleaned_count.
  destruct (astype_series_cells w _ _
              (numeric w (float_column w df) r0) Hcast) as [z Hz].
  { by apply list_elem_of_fmap_2, list_elem_of_filter. }
  unfold cast. rewrite Hz. simpl.
  split_and!; [| | |by eexists]; try done;
    apply (valid_required w r0); [done| |done|]; unfold required_columns;
    set_solver.
Qed.

Lemma read_data_rows_are_observations_witness :
  read_data (sample_world invalid_data_type_values) (StringIO "") initial =
    (Return
       {| columns := header;
          rows := [record "        SpeciesB" "Proteobacteria" (Num (Int64 80));
                   record "        SpeciesC" "Bacteroidetes"
                     (Num (Int64 200))] |},
     logged ([PdReadCsv (StringIO "")] ++ cleaning ++ [LoggingInfo DataLoaded])
       initial) ∧
  ∀ r, r ∈ [record "        SpeciesB" "Proteobacteria" (Num (Int64 80));
            record "        SpeciesC" "Bacteroidetes" (Num (Int64 200))] →
    isna (get "species" r) = false ∧
    isna (get "phylum" r) = false ∧
    isna (get "count" r) = false ∧
    ∃ z, get "count" r = Num (Int64 z).
Proof.
  split; [vm_compute; reflexivity|].
  apply (read_data_rows_are_observations
           (sample_world invalid_data_type_values) (StringIO "") initial
           {| columns := header;
              rows := [record "        SpeciesB" "Proteobacteria"
                         (Num (Int64 80));
                       record "        SpeciesC" "Bacteroidetes"
                         (Num (Int64 200))] |}
           (logged ([PdReadCsv (StringIO "")] ++ cleaning ++
                    [LoggingInfo DataLoaded]) initial)).
  vm_compute; reflexivity.
Defined.

(** C3, as stated, fails: a row whose three fields are present and
    whose count is the number [inf] is not in any cleaned table, because
    the cast raises and [read_data] exits with code 1. *)
Lemma read_data_infinite_count_exits :
  let w := sample_world infinite_data in
  let r := record "SpeciesA" "Firmicutes" (Num (Float64 (Inf false))) in
  loads w (StringIO "species,phylum,count SpeciesA,Firmicutes,inf")
    infinite_data ∧
  required_columns ⊆ columns infinite_data ∧
  r ∈ rows infinite_data ∧
  notna_on required_columns r ∧
  coerced w r = Num (Float64 (Inf false)) ∧
  isna (coerced w r) = false ∧
  read_data w (StringIO "species,phylum,count SpeciesA,Firmicutes,inf")
    initial =
    (Exit 1,
     logged [PdReadCsv (StringIO "species,phylum,count SpeciesA,Firmicutes,inf");
             Dropna required_columns; ToNumeric; Dropna ["count"]; Astype;
             LoggingError (ReadFailed IntCastingNaNError)] initial).
Proof.
  simpl. split_and!.
  - by constructor.
  - done.
  - set_solver.
  - unfold notna_on, required_columns. by repeat constructor.
  - done.
  - done.
  - vm_compute; reflexivity.
Qed.

(** C3, amended.  When every row that passes the null filters has a
    finite count, [read_data] returns, and every input row whose
    species, phylum and count are present and whose count coerces to a
    finite number appears in the returned table with its count replaced
    by the integer part of that number (rounding toward zero), provided
    the integer part is a signed 64-bit integer.  The number is the one
    in the column [pd.to_numeric] returns. *)
Theorem valid_rows_are_cast w src df s :
  loads w src df → required_columns ⊆ columns df →
  (∀ r, r ∈ rows df → valid w r → finite (coerced w r)) →
  ∃ out s',
    read_data w src s = (Return out, s') ∧
    ∀ r n z,
      r ∈ rows df → notna_on required_columns r →
      numeric w (float_column w df) r = Num n →
      integer_part n = Some z → in_int64 z →
      <["count" := Num (Int64 z)]> r ∈ rows out.
Proof.
  intros Hload Hcols Hfin. eexists _, _.
  split; [by apply read_data_returns|]. simpl.
  intros r n z Hin Hna Hn Hz Hrange.
  apply list_elem_of_fmap. exists r. split.
  - unfold cleaned. by rewrite Hn, (cast_finite w n z).
  - apply list_elem_of_filter. split; [|done]. split; [done|].
    rewrite <- (isna_numeric w (float_column w df)), Hn.
    by destruct n as [?|[]].
Qed.

Lemma valid_rows_are_cast_witness :
  let w := sample_world fractional_data in
  loads w (Path "taxonomic_data.csv") fractional_data ∧
  required_columns ⊆ columns fractional_data ∧
  (∀ r, r ∈ rows fractional_data → valid w r → finite (coerced w r)) ∧
  ∃ out s',
    read_data w (Path "taxonomic_data.csv") initial = (Return out, s') ∧
    ∀ r n z,
      r ∈ rows fractional_data → notna_on required_columns r →
      numeric w (float_column w fractional_data) r = Num n →
      integer_part n = Some z → in_int64 z →
      <["count" := Num (Int64 z)]> r ∈ rows out.
Proof.
  assert (H1 : loads (sample_world fractional_data)
                 (Path "taxonomic_data.csv") fractional_data)
    by (by constructor).
  assert (H2 : required_columns ⊆ columns fractional_data) by done.
  assert (H3 : ∀ r, r ∈ rows fractional_data →
                 valid (sample_world fractional_data) r →
                 finite (coerced (sample_world fractional_data) r)).
  { intros r Hr _. simpl in Hr. rewrite !elem_of_cons in Hr.
    destruct Hr as [->|[->|[]%elem_of_nil]]; exact I. }
  simpl. split_and!; [done..|].
  exact (valid_rows_are_cast (sample_world fractional_data)
           (Path "taxonomic_data.csv") fractional_data initial H1 H2 H3).
Defined.

(** The counts 3.5 and -2.5 come out as 3 and -2. *)
Example fractional_counts_truncated :
  fst (read_data (sample_world fractional_data) (Path "taxonomic_data.csv")
         initial) =
  Return {| columns := header;
            rows := [record "SpeciesA" "Firmicutes" (Num (Int64 3));
                     record "SpeciesB" "Firmicutes" (Num (Int64 (-2)))] |}.
Proof. vm_compute; reflexivity. Qed.

(** On a table whose valid rows have integer counts that binary64
    holds exactly, the dtype of the count column does not show. *)
Lemma read_data_loaded_exact w src df s :
  loads w src df → required_columns ⊆ columns df →
  (∀ r, r ∈ rows df → valid w r → exact_count w r) →
  read_data w src s =
    match astype_series w (coerced w <$> kept w df) with
    | inr _ =>
        (Return {| columns := columns df;
                   rows := cleaned w false <$> kept w df |},
         logged (probe src ++ cleaning ++ [LoggingInfo DataLoaded]) s)
    | inl e =>
        (Exit 1,
         logged (probe src ++ cleaning ++ [LoggingError (ReadFailed e)]) s)
    end.
Proof.
  intros Hload Hcols Hexact. rewrite (read_data_loaded w src df) by done.
  assert (Hkept : ∀ r, r ∈ kept w df → exact_count w r).
  { intros r [Hr Hin]%list_elem_of_filter. by apply Hexact. }
  rewrite (astype_series_ext w (numeric w (float_column w df)) (coerced w)).
  - destruct (astype_series w _); [done|]. do 3 f_equal.
    apply list_fmap_ext. intros i r Hi. apply cleaned_exact, Hkept.
    by eapply list_elem_of_lookup_2.
  - intros r Hr. apply astype_cell_numeric_exact. by apply Hkept.
Qed.

Lemma kept_without w cols pre r post :
  invalid w r →
  kept w {| columns := cols; rows := pre ++ r :: post |} =
  kept w {| columns := cols; rows := pre ++ post |}.
Proof.
  intros Hinv. unfold kept; simpl. rewrite !filter_app, filter_cons.
  rewrite decide_False; [done|]. intros Hvalid.
  by apply valid_iff_not_invalid in Hvalid.
Qed.

(** C4, as stated, fails: the row with the count ["not_numeric"] is
    dropped, but it makes the count column float64, and the count
    2^53 + 1 of the other row comes out as 2^53; without the dropped row
    it comes out as it is. *)
Lemma invalid_row_changes_large_count :
  let w := world_of large_tables in
  let bad := record "SpeciesA" "Firmicutes" (Str "not_numeric") in
  let large := record "SpeciesB" "Firmicutes" (Str "9007199254740993") in
  loads w (Path "taxonomic_data.csv")
    {| columns := header; rows := [] ++ bad :: [large] |} ∧
  loads w (StringIO "") {| columns := header; rows := [] ++ [large] |} ∧
  required_columns ⊆ header ∧
  invalid w bad ∧
  fst (read_data w (Path "taxonomic_data.csv") initial) =
    Return {| columns := header;
              rows := [record "SpeciesB" "Firmicutes"
                         (Num (Int64 9007199254740992))] |} ∧
  fst (read_data w (StringIO "") initial) =
    Return {| columns := header;
              rows := [record "SpeciesB" "Firmicutes"
                         (Num (Int64 9007199254740993))] |}.
Proof.
  simpl. split_and!.
  - by constructor.
  - by constructor.
  - done.
  - right. vm_compute; reflexivity.
  - vm_compute; reflexivity.
  - vm_compute; reflexivity.
Qed.

(** C4, amended.  Let the integer counts of the other rows be at most
    2^53 in magnitude.  Then a row with a missing required field, or
    with a count that fails the numeric coercion, is dropped and is
    never the cause of an error: the loader ends on the table as it ends
    on the table without that row; what it returns is the valid rows
    among the others, in their input order, each cleaned on its own; and
    when the other rows that pass the null filters have finite counts it
    does return. *)
Theorem invalid_row_is_dropped w src src' cols pre r post s :
  loads w src {| columns := cols; rows := pre ++ r :: post |} →
  loads w src' {| columns := cols; rows := pre ++ post |} →
  required_columns ⊆ cols →
  invalid w r →
  (∀ r', r' ∈ pre ++ post → exact_count w r') →
  fst (read_data w src s) = fst (read_data w src' s) ∧
  (∀ out s', read_data w src s = (Return out, s') →
     rows out = cleaned w false <$> filter (valid w) (pre ++ post)) ∧
  ((∀ r', r' ∈ pre ++ post → valid w r' → finite (coerced w r')) →
   ∃ out s', read_data w src s = (Return out, s')).
Proof.
  intros Hload Hload' Hcols Hinv Hexact.
  pose proof (kept_without w cols pre r post Hinv) as Hkept.
  rewrite (read_data_loaded_exact w src _ s Hload),
    (read_data_loaded_exact w src' _ s Hload'); simpl; try done.
  - rewrite Hkept. simpl. split_and!.
    + by destruct (astype_series w _).
    + intros out s'. destruct (astype_series w _); [done|]. by intros [= <- _].
    + intros Hfin.
      destruct (astype_series_Forall w
                  (coerced w <$>
                   kept w {| columns := cols; rows := pre ++ post |}))
        as [series ->]; [|by eexists _, _].
      rewrite Forall_fmap, Forall_forall.
      intros r' [Hr' Hin]%list_elem_of_filter. apply finite_castable.
      by apply Hfin.
  - intros r' Hin _. by apply Hexact.
  - intros r' Hin Hvalid. apply Hexact.
    rewrite elem_of_app, elem_of_cons in Hin. rewrite elem_of_app.
    destruct Hin as [?|[->|?]]; [by left| |by right].
    by apply valid_iff_not_invalid in Hvalid.
Qed.

Lemma invalid_row_is_dropped_witness :
  let w := world_of two_tables in
  let r := record "        SpeciesA" "Firmicutes" (Str "not_numeric") in
  let rest := rows type_values_without_first in
  loads w (Path "taxonomic_data.csv")
    {| columns := header; rows := [] ++ r :: rest |} ∧
  loads w (StringIO "") {| columns := header; rows := [] ++ rest |} ∧
  required_columns ⊆ header ∧
  invalid w r ∧
  (∀ r', r' ∈ [] ++ rest → exact_count w r') ∧
  fst (read_data w (Path "taxonomic_data.csv") initial) =
    fst (read_data w (StringIO "") initial) ∧
  (∀ out s', read_data w (Path "taxonomic_data.csv") initial = (Return out, s') →
     rows out = cleaned w false <$> filter (valid w) ([] ++ rest)) ∧
  ((∀ r', r' ∈ [] ++ rest → valid w r' → finite (coerced w r')) →
   ∃ out s', read_data w (Path "taxonomic_data.csv") initial = (Return out, s')).
Proof.
  assert (H1 : loads (world_of two_tables) (Path "taxonomic_data.csv")
                 {| columns := header;
                    rows := [] ++ record "        SpeciesA" "Firmicutes"
                                    (Str "not_numeric")
                               :: rows type_values_without_first |})
    by (by constructor).
  assert (H2 : loads (world_of two_tables) (StringIO "")
                 {| columns := header;
                    rows := [] ++ rows type_values_without_first |})
    by (by constructor).
  assert (H3 : required_columns ⊆ header) by done.
  assert (H4 : invalid (world_of two_tables)
                 (record "        SpeciesA" "Firmicutes" (Str "not_numeric")))
    by (right; vm_compute; reflexivity).
  assert (H5 : ∀ r', r' ∈ [] ++ rows type_values_without_first →
                 exact_count (world_of two_tables) r').
  { intros r' Hr'. simpl in Hr'. rewrite !elem_of_cons in Hr'.
    destruct Hr' as [->|[->|[]%elem_of_nil]]; intros z Hz;
      vm_compute in Hz; try discriminate;
      injection Hz as <-; unfold exact_in_binary64; simpl; lia. }
  simpl. split_and!; [done..| | |];
    apply (invalid_row_is_dropped (world_of two_tables)
             (Path "taxonomic_data.csv") (StringIO "") header []
             (record "        SpeciesA" "Firmicutes" (Str "not_numeric"))
             (rows type_values_without_first) initial H1 H2 H3 H4 H5).
Defined.

(** ** The loader: fatal conditions *)



(** C6. For a path to a file that does not exist, [read_data] logs the
    error and exits with code 1 right after the existence test: no call
    to [pd.read_csv] has been made. *)
Theorem missing_file_exits w p s :
  path_exists w p = false →
  read_data w (Path p) s =
    (Exit 1, logged [OsPathExists p; LoggingError (FileNotFound p)] s) ∧
  ∀ src, PdReadCsv src ∉ [OsPathExists p; LoggingError (FileNotFound p)].
Proof.
  intros Hp. split; [by apply read_data_missing_file|].
  intros src [?|[?|[]%elem_of_nil]%elem_of_cons]%elem_of_cons; discriminate.
Qed.

Lemma missing_file_exits_witness :
  path_exists (sample_world valid_data) "absent.csv" = false ∧
  read_data (sample_world valid_data) (Path "absent.csv") initial =
    (Exit 1,
     logged [OsPathExists "absent.csv"; LoggingError (FileNotFound "absent.csv")]
       initial) ∧
  ∀ src, PdReadCsv src ∉
    [OsPathExists "absent.csv"; LoggingError (FileNotFound "absent.csv")].
Proof.
  split; [reflexivity|].
  apply (missing_file_exits (sample_world valid_data) "absent.csv" initial).
  reflexivity.
Defined.

(** ** 64-bit sums *)

Lemma wrap64_add_l a b : wrap64 (wrap64 a + b) = wrap64 (a + b).
Proof.
  unfold wrap64. f_equal.
  replace ((a + 2 ^ 63) `mod` 2 ^ 64 - 2 ^ 63 + b + 2 ^ 63)
    with ((a + 2 ^ 63) `mod` 2 ^ 64 + b) by lia.
  rewrite Zplus_mod_idemp_l. f_equal. lia.
Qed.

Lemma wrap64_add_r a b : wrap64 (a + wrap64 b) = wrap64 (a + b).
Proof. by rewrite Z.add_comm, wrap64_add_l, Z.add_comm. Qed.

Lemma sumZ_cons x l : sumZ (x :: l) = x + sumZ l.
Proof. done. Qed.

Lemma fold_add64 l a :
  fold_left add64 l (wrap64 a) = wrap64 (a + sumZ l).
Proof.
  revert a. induction l as [|x l IH]; intros a; simpl.
  - by rewrite Z.add_0_r.
  - unfold add64 at 2. rewrite wrap64_add_l, IH. f_equal. lia.
Qed.

(** The int64 sum is the exact sum reduced to 64 bits. *)
Lemma sum64_wrap l : sum64 l = wrap64 (sumZ l).
Proof.
  unfold sum64. change 0 with (wrap64 0) at 1. by rewrite fold_add64.
Qed.

(** It is the exact sum whenever that fits in 64 bits. *)
Lemma sum64_exact l : in_int64 (sumZ l) → sum64 l = sumZ l.
Proof. intros. rewrite sum64_wrap. by apply wrap64_in_range. Qed.

Lemma sum64_of_wrapped {A} (f : A → list Z) (keys : list A) :
  sum64 ((λ k, sum64 (f k)) <$> keys) = wrap64 (sumZ ((λ k, sumZ (f k)) <$> keys)).
Proof.
  rewrite sum64_wrap. induction keys as [|k keys IH]; [done|].
  rewrite !fmap_cons, !sumZ_cons, sum64_wrap, wrap64_add_l.
  rewrite <- (wrap64_add_r (sumZ (f k))), IH. apply wrap64_add_r.
Qed.

(** ** Binary64 arithmetic *)











































(** [binary64] and the float operations agree with the floats of the
    machine. *)
Example binary64_is_hardware :
  hardware (PrimFloat.div (hardware_int 51) (hardware_int 40)) =
    binary64 (51 # 40) ∧
  hardware (PrimFloat.mul (PrimFloat.div (hardware_int 51) (hardware_int 40))
              (hardware_int 100)) =
    fmul (binary64 (51 # 40)) (Fin 100) ∧
  hardware (PrimFloat.div (hardware_int 127) (hardware_int 100)) =
    binary64 (127 # 100) ∧
  hardware (PrimFloat.div (hardware_int 1) (hardware_int 3)) =
    binary64 (1 # 3) ∧
  hardware (PrimFloat.add (hardware_int 9007199254740992) (hardware_int 1)) =
    fadd (Fin 9007199254740992) (Fin 1) ∧
  hardware (hardware_int 9007199254740993) = binary64 9007199254740993.
Proof. vm_compute. repeat split. Qed.

(** The integer an int64 becomes in a float64 column is its
    [binary64]. *)
Example nearest_binary64_is_binary64 :
  Forall (λ z, of_int64 z = Fin (inject_Z (nearest_binary64 z)))
    [0; -1; 9007199254740992; 9007199254740993; -9007199254740995;
     9007199254740994; 1000000000000000001; 9223372036854775807;
     -9223372036854775808; 4611686018427387905].
Proof. repeat (constructor; [vm_compute; reflexivity|]). constructor. Qed.

(** ** Groups *)

Lemma sumZ_indicator_absent (keys : list label) p c :
  p ∉ keys → sumZ ((λ k, if decide (p = k) then c else 0) <$> keys) = 0.
Proof.
  induction keys as [|k keys IH]; [done|].
  intros [Hne Hk]%not_elem_of_cons. rewrite fmap_cons, sumZ_cons.
  rewrite decide_False by done. by rewrite IH.
Qed.

Lemma sumZ_indicator (keys : list label) p c :
  NoDup keys → p ∈ keys →
  sumZ ((λ k, if decide (p = k) then c else 0) <$> keys) = c.
Proof.
  induction 1 as [|k keys Hk Hnd IH]; [by intros ?%elem_of_nil|].
  rewrite fmap_cons, sumZ_cons. intros [->|Hin]%elem_of_cons.
  - rewrite decide_True by done. rewrite sumZ_indicator_absent by done. lia.
  - rewrite decide_False by (intros ->; done). by rewrite IH.
Qed.

Lemma sumZ_pointwise_add {A} (f g : A → Z) (l : list A) :
  sumZ ((λ x, f x + g x) <$> l) = sumZ (f <$> l) + sumZ (g <$> l).
Proof.
  induction l as [|x l IH]; [done|]. rewrite !fmap_cons, !sumZ_cons, IH. lia.
Qed.

(** The groups of a key list without duplicates that covers every
    phylum partition the counts. *)
Lemma groups_partition (keys : list label) (df : list Observation) :
  NoDup keys → (∀ o, o ∈ df → phylum o ∈ keys) →
  sumZ ((λ k, sumZ (group_counts k df)) <$> keys) = sumZ (count <$> df).
Proof.
  intros Hnd. induction df as [|o df IH]; intros Hcover.
  - clear. induction keys as [|k keys IHk]; [done|].
    rewrite fmap_cons, sumZ_cons, IHk. done.
  - rewrite fmap_cons, sumZ_cons.
    rewrite <- IH by (intros; apply Hcover; by right).
    rewrite <- (sumZ_indicator keys (phylum o) (count o)) at 1
      by (try done; apply Hcover; by left).
    rewrite <- sumZ_pointwise_add. f_equal. apply list_fmap_ext.
    intros _ k _. unfold group_counts. rewrite filter_cons.
    destruct (decide (phylum o = k)); [|lia].
    by rewrite fmap_cons, sumZ_cons.
Qed.

Lemma group_keys_NoDup df : NoDup (group_keys df).
Proof.
  unfold group_keys. rewrite merge_sort_Permutation. apply NoDup_remove_dups.
Qed.

Lemma elem_of_group_keys df p : p ∈ group_keys df ↔ p ∈ phylum <$> df.
Proof.
  unfold group_keys. by rewrite merge_sort_Permutation, elem_of_remove_dups.
Qed.

Lemma lexicographic_iff a b : lexicographic a b ↔ String.le a b ∧ a ≠ b.
Proof.
  unfold lexicographic, String.le, String.ltb, String.leb. split.
  - destruct (String.compare a b) eqn:Hc; try done. intros _. split; [done|].
    intros ->. assert (String.le b b) as Hrefl by done.
    unfold String.le, String.leb in Hrefl.
    rewrite String.compare_antisym in Hc.
    destruct (String.compare b b); done.
  - destruct (String.compare a b) eqn:Hc; try done.
    + apply String.compare_eq_iff in Hc. by intros [_ ?].
    + by intros [? _].
Qed.

Global Instance label_le_total : Total label_le.
Proof.
  intros [s|x] [t|y]; simpl; try tauto; [apply (total String.le)|lia].
Qed.

Global Instance label_le_trans : Transitive label_le.
Proof.
  intros [s|x] [t|y] [u|z]; simpl; try tauto; [|lia].
  apply (transitivity (R := String.le)).
Qed.

Global Instance label_le_antisymm : AntiSymm (=) label_le.
Proof.
  intros [s|x] [t|y]; simpl; try tauto.
  - intros H1 H2. f_equal. by apply (anti_symm String.le).
  - intros. f_equal. lia.
Qed.


Lemma ascending_iff a b : ascending a b ↔ label_le a b ∧ a ≠ b.
Proof.
  destruct a as [s|x], b as [t|y]; simpl.
  - rewrite lexicographic_iff. split; intros [? Hne]; (split; [done|]);
      congruence.
  - split; [done|]. by intros [[] _].
  - split; [done|]. by intros [[] _].
  - split; [intros ?; split; [lia|intros [= ->]; lia]|].
    intros [? Hne]. destruct (decide (x = y)) as [->|]; [done|lia].
Qed.

Lemma group_keys_sorted df : StronglySorted ascending (group_keys df).
Proof.
  pose proof (group_keys_NoDup df) as Hnd.
  assert (Hle : StronglySorted label_le (group_keys df))
    by apply (StronglySorted_merge_sort _).
  induction Hle as [|k keys Hle IH Hall]; [constructor|].
  apply NoDup_cons in Hnd as [Hk Hnd]. constructor; [by apply IH|].
  rewrite Forall_forall in Hall |- *. intros k' Hin.
  apply ascending_iff. split; [by apply Hall|]. by intros ->.
Qed.

(** ** Running the aggregator *)

Section aggregator_facts.
Context (w : World).

Lemma summary_of_phyla obs : group_phylum <$> summary_of w obs = group_keys obs.
Proof.
  unfold summary_of, agg. rewrite <- !list_fmap_compose.
  rewrite <- (list_fmap_id (group_keys obs)) at 2. by apply list_fmap_ext.
Qed.

Lemma summary_of_totals obs :
  total_species_count <$> summary_of w obs =
  (λ k, sum64 (group_counts k obs)) <$> group_keys obs.
Proof.
  unfold summary_of, agg. rewrite <- !list_fmap_compose.
  by apply list_fmap_ext.
Qed.

Lemma elem_of_summary_of obs e :
  e ∈ summary_of w obs →
  group_phylum e ∈ group_keys obs ∧
  total_species_count e = sum64 (group_counts (group_phylum e) obs) ∧
  average_species_count e =
    round64 w (mean64 w (group_counts (group_phylum e) obs)) 2.
Proof.
  unfold summary_of, agg. rewrite <- list_fmap_compose.
  by intros (k & -> & Hk)%list_elem_of_fmap.
Qed.


(** On an observation table the aggregation succeeds: the summary is
    a new object, and nothing else in the store changes. *)
Lemma calculate_summary_statistics_run df obs s :
  heap s !! df = Some (ObservationTable obs) →
  calculate_summary_statistics w df s =
    (Return (fresh (dom (heap s))),
     summarised w (fresh (dom (heap s))) obs s).
Proof.
  intros Hdf.
  unfold calculate_summary_statistics, try_except, groupby_agg,
    getitem_average, round, setitem_average, deref, alloc, store.
  unfold logging_info, emit, mret, M_ret, mbind, M_bind, summarised.
  with_strategy transparent [logged] (unfold logged); simpl.
  rewrite Hdf; simpl. repeat (rewrite lookup_insert_eq; simpl).
  rewrite insert_insert_eq, <- !(assoc_L (++)). simpl.
  do 4 f_equal. unfold summary_of.
  rewrite <- list_fmap_compose, zip_with_fmap_r. apply zip_with_diag.
Qed.

(** On a summary table [groupby] is called, and the aggregation finds
    no [count] column; on no frame at all the attribute lookup fails
    before any call. *)
Lemma calculate_summary_statistics_on_summary df sm s :
  heap s !! df = Some (SummaryTable sm) →
  calculate_summary_statistics w df s =
    (Exit 1,
     logged [GroupbyAgg; LoggingError (SummaryFailed (KeyError "count"))] s).
Proof.
  intros Hdf.
  unfold calculate_summary_statistics, try_except, groupby_agg, deref.
  unfold logging_error, sys_exit, raise, emit, mret, M_ret, mbind, M_bind.
  with_strategy transparent [logged] (unfold logged); simpl.
  rewrite Hdf; simpl. by rewrite <- (assoc_L (++)).
Qed.

Lemma calculate_summary_statistics_no_frame df s :
  heap s !! df = None →
  calculate_summary_statistics w df s =
    (Exit 1, logged [LoggingError (SummaryFailed AttributeError)] s).
Proof.
  intros Hdf.
  unfold calculate_summary_statistics, try_except, groupby_agg, deref.
  unfold logging_error, sys_exit, raise, emit, mret, M_ret, mbind, M_bind.
  with_strategy transparent [logged] (unfold logged); simpl.
  by rewrite Hdf.
Qed.

Lemma save_results_run df table p s :
  heap s !! df = Some table →
  save_results w df p s =
    match file_write w p with
    | None => (Return tt, logged [ToCsv p table; LoggingInfo (ResultsSaved p)] s)
    | Some e => (Exit 1, logged [ToCsv p table; LoggingError (SaveFailed e)] s)
    end.
Proof.
  intros Hdf. unfold save_results, try_except, to_csv, deref.
  unfold logging_error, logging_info, sys_exit, raise, emit, mret, M_ret,
    mbind, M_bind.
  with_strategy transparent [logged] (unfold logged); simpl.
  rewrite Hdf; simpl. destruct (file_write w p); simpl;
    by rewrite <- (assoc_L (++)).
Qed.

Lemma generate_bar_chart_run df sm p s :
  heap s !! df = Some (SummaryTable sm) →
  generate_bar_chart w df p s =
    let bars := PltBar (group_phylum <$> sm) (total_species_count <$> sm) in
    match file_write w p with
    | None =>
        (Return tt,
         logged [PltFigure; bars; PltDecorate; PltSavefig p; PltClose;
                 LoggingInfo (ChartSaved p)] s)
    | Some e =>
        (Exit 1,
         logged [PltFigure; bars; PltDecorate; PltSavefig p;
                 LoggingError (ChartFailed e)] s)
    end.
Proof.
  intros Hdf.
  unfold generate_bar_chart, try_except, plt_bar, plt_savefig, deref.
  unfold logging_error, logging_info, sys_exit, raise, emit, mret, M_ret,
    mbind, M_bind.
  with_strategy transparent [logged] (unfold logged); simpl.
  rewrite Hdf; simpl. destruct (file_write w p); simpl;
    by rewrite <- !(assoc_L (++)).
Qed.

End aggregator_facts.

(** ** The aggregator: claims *)

(** C1, as stated, fails: the total of a phylum is an int64, and two
    counts of 2^62 add up to -2^63 in it, which is not their sum. *)
Lemma summary_total_overflows :
  let w := sample_world valid_data in
  let s := holding overflowing_observations in
  heap s !! 1%positive = Some (ObservationTable overflowing_observations) ∧
  Forall (λ o, in_int64 (count o)) overflowing_observations ∧
  (calculate_summary_statistics w 1%positive s).1 = Return 2%positive ∧
  heap (calculate_summary_statistics w 1%positive s).2 !! 2%positive =
    Some (SummaryTable (summary_of w overflowing_observations)) ∧
  total_species_count <$> summary_of w overflowing_observations =
    [-9223372036854775808] ∧
  sumZ (count <$> overflowing_observations) = 9223372036854775808.
Proof.
  simpl. split_and!.
  - reflexivity.
  - repeat constructor; vm_compute; discriminate.
  - vm_compute; reflexivity.
  - vm_compute; reflexivity.
  - vm_compute; reflexivity.
  - vm_compute; reflexivity.
Qed.

(** C1, amended.  The summary table of a cleaned observation table has
    exactly one entry per distinct phylum of the table.  The total of an
    entry is the sum of the counts of the observations with its phylum,
    reduced to a signed 64-bit integer, and the totals add up to the sum
    of all counts modulo 2^64.  When the sum of every phylum lies in the
    signed 64-bit range, each total is that sum and the totals add up to
    the sum of all counts. *)
Theorem summary_is_group_by_sum w df obs s :
  heap s !! df = Some (ObservationTable obs) →
  ∃ summary table s',
    calculate_summary_statistics w df s = (Return summary, s') ∧
    heap s' !! summary = Some (SummaryTable table) ∧
    NoDup (group_phylum <$> table) ∧
    (∀ p, p ∈ group_phylum <$> table ↔ p ∈ phylum <$> obs) ∧
    (∀ e, e ∈ table →
       total_species_count e =
         wrap64 (sumZ (count <$> filter (λ o, phylum o = group_phylum e) obs))) ∧
    wrap64 (sumZ (total_species_count <$> table)) =
      wrap64 (sumZ (count <$> obs)) ∧
    ((∀ p, in_int64 (sumZ (count <$> filter (λ o, phylum o = p) obs))) →
     (∀ e, e ∈ table →
        total_species_count e =
          sumZ (count <$> filter (λ o, phylum o = group_phylum e) obs)) ∧
     sumZ (total_species_count <$> table) = sumZ (count <$> obs)).
Proof.
  intros Hdf. eexists _, (summary_of w obs), _.
  split; [by apply calculate_summary_statistics_run|].
  split; [apply lookup_insert_eq|].
  assert (Htotal : ∀ e, e ∈ summary_of w obs →
            total_species_count e =
              wrap64 (sumZ (group_counts (group_phylum e) obs))).
  { intros e He. apply elem_of_summary_of in He as (_ & Ht & _).
    rewrite Ht. apply sum64_wrap. }
  assert (Hpartition :
            sumZ ((λ k, sumZ (group_counts k obs)) <$> group_keys obs) =
            sumZ (count <$> obs)).
  { apply groups_partition; [apply group_keys_NoDup|].
    intros o Ho. by apply elem_of_group_keys, list_elem_of_fmap_2. }
  rewrite summary_of_phyla, summary_of_totals. split_and!.
  - apply group_keys_NoDup.
  - apply elem_of_group_keys.
  - done.
  - rewrite <- (sum64_wrap (_ <$> group_keys obs)), sum64_of_wrapped.
    by rewrite Hpartition.
  - intros Hrange. split.
    + intros e He. rewrite (Htotal e He). by apply wrap64_in_range, Hrange.
    + rewrite <- Hpartition. f_equal. apply list_fmap_ext. intros _ k _.
      apply sum64_exact, Hrange.
Qed.

Lemma summary_is_group_by_sum_witness :
  heap (holding valid_observations) !! 1%positive =
    Some (ObservationTable valid_observations) ∧
  ∃ summary table s',
    calculate_summary_statistics (sample_world valid_data) 1%positive
      (holding valid_observations) = (Return summary, s') ∧
    heap s' !! summary = Some (SummaryTable table) ∧
    NoDup (group_phylum <$> table) ∧
    (∀ p, p ∈ group_phylum <$> table ↔ p ∈ phylum <$> valid_observations) ∧
    (∀ e, e ∈ table →
       total_species_count e =
         wrap64 (sumZ (count <$> filter (λ o, phylum o = group_phylum e)
                                   valid_observations))) ∧
    wrap64 (sumZ (total_species_count <$> table)) =
      wrap64 (sumZ (count <$> valid_observations)) ∧
    ((∀ p, in_int64 (sumZ (count <$> filter (λ o, phylum o = p)
                                       valid_observations))) →
     (∀ e, e ∈ table →
        total_species_count e =
          sumZ (count <$> filter (λ o, phylum o = group_phylum e)
                            valid_observations)) ∧
     sumZ (total_species_count <$> table) =
       sumZ (count <$> valid_observations)).
Proof.
  split; [reflexivity|].
  apply (summary_is_group_by_sum (sample_world valid_data) 1%positive
           valid_observations (holding valid_observations)).
  reflexivity.
Defined.

(** The summary of the unit tests' valid table. *)
Example valid_data_summary :
  summary_of (sample_world valid_data) valid_observations =
    [{| group_phylum := "Bacteroidetes"; total_species_count := 250;
        average_species_count := Fin 125 |};
     {| group_phylum := "Firmicutes"; total_species_count := 200;
        average_species_count := Fin 100 |};
     {| group_phylum := "Proteobacteria"; total_species_count := 300;
        average_species_count := Fin 300 |}].
Proof. vm_compute; reflexivity. Qed.

(** C7. Aggregating an empty observation table returns, without an
    exception and without exiting, a summary table with no rows. *)
Theorem empty_table_gives_empty_summary w df s :
  heap s !! df = Some (ObservationTable []) →
  ∃ summary s',
    calculate_summary_statistics w df s = (Return summary, s') ∧
    heap s' !! summary = Some (SummaryTable []).
Proof.
  intros Hdf. eexists _, _.
  split; [by apply calculate_summary_statistics_run|].
  apply lookup_insert_eq.
Qed.

Lemma empty_table_gives_empty_summary_witness :
  heap (holding []) !! 1%positive = Some (ObservationTable []) ∧
  ∃ summary s',
    calculate_summary_statistics (sample_world valid_data) 1%positive
      (holding []) = (Return summary, s') ∧
    heap s' !! summary = Some (SummaryTable []).
Proof.
  split; [reflexivity|].
  apply (empty_table_gives_empty_summary (sample_world valid_data) 1%positive
           (holding [])).
  reflexivity.
Defined.




(** C9, as stated, fails: phyla that the file writes as whole numbers
    are an int64 column, and [groupby] sorts them by value.  The summary
    has 9 before 10, which is not the lexicographic order of the labels
    as they are written. *)
Lemma numeric_phyla_not_lexicographic :
  ∃ summary table s',
    calculate_summary_statistics (sample_world valid_data) 1%positive
      (holding numeric_observations) = (Return summary, s') ∧
    heap s' !! summary = Some (SummaryTable table) ∧
    group_phylum <$> table = [Whole 9; Whole 10] ∧
    written <$> (group_phylum <$> table) = ["9"; "10"] ∧
    ¬ StronglySorted lexicographic (written <$> (group_phylum <$> table)).
Proof.
  eexists _, (summary_of (sample_world valid_data) numeric_observations), _.
  split; [by apply calculate_summary_statistics_run|].
  split; [apply lookup_insert_eq|].
  split; [vm_compute; reflexivity|].
  split; [vm_compute; reflexivity|].
  replace (written <$> (group_phylum <$>
             summary_of (sample_world valid_data) numeric_observations))
    with ["9"; "10"] by (vm_compute; reflexivity).
  intros Hsorted. apply StronglySorted_inv in Hsorted as [_ Hall].
  apply Forall_inv in Hall. vm_compute in Hall. discriminate.
Qed.

Lemma first_seen_elem_of l p : p ∈ first_seen l ↔ p ∈ l.
Proof.
  induction l as [|x l IH]; [done|]. simpl.
  rewrite !elem_of_cons, list_elem_of_filter, IH.
  destruct (decide (p = x)); tauto.
Qed.

Lemma first_seen_NoDup l : NoDup (first_seen l).
Proof.
  induction l as [|x l IH]; simpl; [constructor|].
  apply NoDup_cons. split; [|by apply NoDup_filter].
  by intros [? _]%list_elem_of_filter.
Qed.

Lemma ascending_sorted_le l :
  StronglySorted ascending l → StronglySorted label_le l.
Proof.
  induction 1 as [|x l _ IH Hall]; constructor; [done|].
  eapply Forall_impl; [exact Hall|]. by intros y [? _]%ascending_iff.
Qed.

(** Text labels in ascending order are in lexicographic order, and
    integer labels in ascending order are in numeric order. *)
Lemma ascending_texts (keys : list label) :
  (∀ p, p ∈ keys → ∃ t, p = Text t) → StronglySorted ascending keys →
  ∃ texts, keys = Text <$> texts ∧ StronglySorted lexicographic texts.
Proof.
  intros Htext Hsorted.
  induction Hsorted as [|p keys _ IH Hall];
    [exists []; split; [done|constructor]|].
  destruct (Htext p) as [t ->]; [by left|].
  destruct IH as (texts & -> & Hsorted); [intros; apply Htext; by right|].
  exists (t :: texts). split; [done|]. constructor; [done|].
  by rewrite Forall_fmap in Hall.
Qed.

Lemma ascending_numbers (keys : list label) :
  (∀ p, p ∈ keys → ∃ z, p = Whole z) → StronglySorted ascending keys →
  ∃ numbers, keys = Whole <$> numbers ∧ StronglySorted Z.lt numbers.
Proof.
  intros Hnum Hsorted.
  induction Hsorted as [|p keys _ IH Hall];
    [exists []; split; [done|constructor]|].
  destruct (Hnum p) as [z ->]; [by left|].
  destruct IH as (numbers & -> & Hsorted); [intros; apply Hnum; by right|].
  exists (z :: numbers). split; [done|]. constructor; [done|].
  by rewrite Forall_fmap in Hall.
Qed.

(** C9, amended.  The phyla of the summary are the distinct phyla of
    the observation table, each once, in strictly ascending order of
    their values: lexicographic (code-point) order when the phyla are
    text, numeric order when they are integers.  This is the order in
    which the phyla first occur in the input only when that order is
    ascending already.  [save_results] writes the rows, and
    [generate_bar_chart] after it draws the bars, in the order of the
    summary. *)
Theorem summary_sorted_by_phylum w df obs s :
  heap s !! df = Some (ObservationTable obs) →
  ∃ summary table s',
    calculate_summary_statistics w df s = (Return summary, s') ∧
    heap s' !! summary = Some (SummaryTable table) ∧
    NoDup (group_phylum <$> table) ∧
    (∀ p, p ∈ group_phylum <$> table ↔ p ∈ phylum <$> obs) ∧
    StronglySorted ascending (group_phylum <$> table) ∧
    ((∀ o, o ∈ obs → ∃ t, phylum o = Text t) →
     ∃ texts, group_phylum <$> table = Text <$> texts ∧
              StronglySorted lexicographic texts) ∧
    ((∀ o, o ∈ obs → ∃ z, phylum o = Whole z) →
     ∃ numbers, group_phylum <$> table = Whole <$> numbers ∧
                StronglySorted Z.lt numbers) ∧
    (group_phylum <$> table = first_seen (phylum <$> obs) ↔
     StronglySorted ascending (first_seen (phylum <$> obs))) ∧
    (∀ output_file output_image, ∃ o1 s1 o2 s2,
       save_results w summary output_file s' = (o1, s1) ∧
       ToCsv output_file (SummaryTable table) ∈ trace s1 ∧
       generate_bar_chart w summary output_image s1 = (o2, s2) ∧
       PltBar (group_phylum <$> table) (total_species_count <$> table)
         ∈ trace s2).
Proof.
  intros Hdf. eexists _, (summary_of w obs), _.
  split; [by apply calculate_summary_statistics_run|].
  assert (Hsummary :
    heap (summarised w (fresh (dom (heap s))) obs s) !! fresh (dom (heap s)) =
      Some (SummaryTable (summary_of w obs))) by apply lookup_insert_eq.
  split; [done|]. rewrite summary_of_phyla.
  assert (Hkeys : ∀ p, p ∈ group_keys obs → ∃ o, o ∈ obs ∧ p = phylum o).
  { intros p (o & -> & Ho)%elem_of_group_keys%list_elem_of_fmap. eauto. }
  split_and!.
  - apply group_keys_NoDup.
  - apply elem_of_group_keys.
  - apply group_keys_sorted.
  - intros Htext. apply ascending_texts; [|apply group_keys_sorted].
    intros p (o & Ho & ->)%Hkeys. by apply Htext.
  - intros Hnum. apply ascending_numbers; [|apply group_keys_sorted].
    intros p (o & Ho & ->)%Hkeys. by apply Hnum.
  - split; [intros <-; apply group_keys_sorted|]. intros Hsorted.
    apply (StronglySorted_unique label_le).
    + apply ascending_sorted_le, group_keys_sorted.
    + by apply ascending_sorted_le.
    + apply NoDup_Permutation;
        [apply group_keys_NoDup|apply first_seen_NoDup|].
      intros p. by rewrite elem_of_group_keys, first_seen_elem_of.
  - intros p q. rewrite (save_results_run w _ _ p _ Hsummary).
    assert (Hbars : ∀ evs,
      ∃ o2 s2,
        generate_bar_chart w (fresh (dom (heap s))) q
          (logged evs (summarised w (fresh (dom (heap s))) obs s)) = (o2, s2) ∧
        PltBar (group_phylum <$> summary_of w obs)
          (total_species_count <$> summary_of w obs) ∈ trace s2).
    { intros evs.
      rewrite (generate_bar_chart_run w _ (summary_of w obs) q)
        by by rewrite heap_logged.
      simpl. destruct (file_write w q); eexists _, _; (split; [done|]);
        rewrite trace_logged, elem_of_app; right; right; left. }
    rewrite <- (summary_of_phyla w obs).
    destruct (file_write w p).
    + destruct (Hbars [ToCsv p (SummaryTable (summary_of w obs));
                       LoggingError (SaveFailed e)]) as (o2 & s2 & ? & ?).
      eexists _, _, o2, s2. split_and!; [done| |done..].
      rewrite trace_logged, elem_of_app. right. left.
    + destruct (Hbars [ToCsv p (SummaryTable (summary_of w obs));
                       LoggingInfo (ResultsSaved p)]) as (o2 & s2 & ? & ?).
      eexists _, _, o2, s2. split_and!; [done| |done..].
      rewrite trace_logged, elem_of_app. right. left.
Qed.

Lemma summary_sorted_by_phylum_witness :
  heap (holding valid_observations) !! 1%positive =
    Some (ObservationTable valid_observations) ∧
  ∃ summary table s',
    calculate_summary_statistics (sample_world valid_data) 1%positive
      (holding valid_observations) = (Return summary, s') ∧
    heap s' !! summary = Some (SummaryTable table) ∧
    NoDup (group_phylum <$> table) ∧
    (∀ p, p ∈ group_phylum <$> table ↔ p ∈ phylum <$> valid_observations) ∧
    StronglySorted ascending (group_phylum <$> table) ∧
    ((∀ o, o ∈ valid_observations → ∃ t, phylum o = Text t) →
     ∃ texts, group_phylum <$> table = Text <$> texts ∧
              StronglySorted lexicographic texts) ∧
    ((∀ o, o ∈ valid_observations → ∃ z, phylum o = Whole z) →
     ∃ numbers, group_phylum <$> table = Whole <$> numbers ∧
                StronglySorted Z.lt numbers) ∧
    (group_phylum <$> table = first_seen (phylum <$> valid_observations) ↔
     StronglySorted ascending (first_seen (phylum <$> valid_observations))) ∧
    (∀ output_file output_image, ∃ o1 s1 o2 s2,
       save_results (sample_world valid_data) summary output_file s' =
         (o1, s1) ∧
       ToCsv output_file (SummaryTable table) ∈ trace s1 ∧
       generate_bar_chart (sample_world valid_data) summary output_image s1 =
         (o2, s2) ∧
       PltBar (group_phylum <$> table) (total_species_count <$> table)
         ∈ trace s2).
Proof.
  split; [reflexivity|].
  apply (summary_sorted_by_phylum (sample_world valid_data) 1%positive
           valid_observations (holding valid_observations)).
  reflexivity.
Defined.

(** The phyla of the valid table: first seen, and as the summary lists
    them; and the phyla of the numeric table. *)
Example valid_data_order :
  first_seen (phylum <$> valid_observations) =
    [Text "Firmicutes"; Text "Bacteroidetes"; Text "Proteobacteria"] ∧
  group_keys valid_observations =
    [Text "Bacteroidetes"; Text "Firmicutes"; Text "Proteobacteria"] ∧
  first_seen (phylum <$> numeric_observations) = [Whole 10; Whole 9] ∧
  group_keys numeric_observations = [Whole 9; Whole 10].
Proof. split_and!; vm_compute; reflexivity. Qed.

(** C10. [calculate_summary_statistics] leaves the table it is given as
    it was: after the call the argument refers to the same frame, as
    does every variable that referred to a frame before; the summary it
    returns is an object that did not exist before, and the rounding
    writes to that object only. *)
Theorem argument_unchanged w df s :
  heap (calculate_summary_statistics w df s).2 !! df = heap s !! df ∧
  (∀ l, is_Some (heap s !! l) →
     heap (calculate_summary_statistics w df s).2 !! l = heap s !! l) ∧
  (∀ summary,
     (calculate_summary_statistics w df s).1 = Return summary →
     heap s !! summary = None).
Proof.
  assert (Hfresh : heap s !! fresh (dom (heap s)) = None).
  { apply not_elem_of_dom, is_fresh. }
  destruct (heap s !! df) as [[obs|table]|] eqn:Hdf.
  - rewrite (calculate_summary_statistics_run w df obs s Hdf). simpl.
    split_and!.
    + rewrite lookup_insert_ne; [done|]. intros Heq. congruence.
    + intros l [f Hl]. rewrite lookup_insert_ne; [done|]. intros Heq.
      congruence.
    + by intros summary [= <-].
  - rewrite (calculate_summary_statistics_on_summary w df table s Hdf).
    simpl. by rewrite heap_logged.
  - rewrite (calculate_summary_statistics_no_frame w df s Hdf).
    simpl. by rewrite heap_logged.
Qed.

(** * Further properties *)

(** ** The loader: how a run ends *)

Section loader_outcomes.
Context (w : World).

Lemma castable_finite c :
  (∃ c', astype_cell w (Num c) = inr c') → finite (Num c).
Proof. destruct c as [z|[|b|q]]; simpl; intros [c' Hc]; done. Qed.

Lemma coerced_is_number r : ∃ n, coerced w r = Num n.
Proof. unfold coerced, coerce. destruct (get "count" r); by eexists. Qed.

Lemma finite_of_promoted c : finite (promote c) → finite c.
Proof. by destruct c as [s|[z|[|b|q]]]. Qed.

Lemma finite_of_numeric float r :
  finite (numeric w float r) → finite (coerced w r).
Proof. destruct float; [apply finite_of_promoted|done]. Qed.

Lemma numeric_is_number float r : ∃ n, numeric w float r = Num n.
Proof.
  destruct (coerced_is_number r) as [n Hn]. unfold numeric. rewrite Hn.
  destruct float; [|by eexists]. destruct n; by eexists.
Qed.

(** The cast of a numeric cell is an int64. *)
Lemma astype_cell_in_int64 n z :
  astype_cell w (Num n) = inr (Num (Int64 z)) → in_int64 z.
Proof.
  destruct n as [z'|[|b|q]]; simpl; try done; intros [= <-].
  - apply wrap64_range.
  - destruct (in_int64b (truncate q)) eqn:Hq; [|done].
    apply andb_true_iff in Hq as [?%Z.leb_le ?%Z.leb_le]. done.
Qed.

(** The cast of a numeric cell fails with [IntCastingNaNError] only. *)
Lemma astype_series_numbers_inl {A} (f : A → cell) (l : list A) e :
  (∀ x, ∃ n, f x = Num n) →
  astype_series w (f <$> l) = inl e → e = IntCastingNaNError.
Proof.
  intros Hf. induction l as [|x l IH]; [done|]. rewrite fmap_cons. simpl.
  destruct (Hf x) as [n ->]. simpl. destruct (astype_int n); [|by intros [= <-]].
  destruct (astype_series w (f <$> l)); [|done]. intros [= <-]. by apply IH.
Qed.

End loader_outcomes.

(** A run of [read_data] never ends in an exception: it returns, after
    the information message and without any error message, or it exits
    with code 1, the last call before the exit being the error
    message. *)
Theorem read_data_returns_or_exits w src s :
  ∃ evs,
    (read_data w src s).2 = logged evs s ∧
    ((∃ out, (read_data w src s).1 = Return out ∧
             last evs = Some (LoggingInfo DataLoaded) ∧
             ∀ m, LoggingError m ∉ evs) ∨
     ((read_data w src s).1 = Exit 1 ∧
      ∃ m, last evs = Some (LoggingError m))).
Proof.
  destruct src as [p|text|].
  - destruct (path_exists w p) eqn:Hp.
    + destruct (csv_parse w (Path p)) as [e|df] eqn:Hparse.
      * rewrite (read_data_parse_error w (Path p) e) by done.
        eexists. split; [done|]. right. split; [done|]. by eexists.
      * assert (Hload : loads w (Path p) df) by by constructor.
        destruct (decide (required_columns ⊆ columns df)).
        -- rewrite (read_data_loaded w _ df) by done.
           destruct (astype_series w _); eexists; (split; [done|]).
           ++ right. split; [done|]. by eexists.
           ++ left. eexists. split_and!; [done..|].
              intros m Hm. simpl in Hm. unfold cleaning in Hm.
              rewrite !elem_of_cons, elem_of_nil in Hm.
              destruct Hm as [?|[?|[?|[?|[?|[?|[?|[]]]]]]]]; discriminate.
        -- rewrite (read_data_schema_error w _ df) by done.
           eexists. split; [done|]. right. split; [done|]. by eexists.
    + rewrite read_data_missing_file by done.
      eexists. split; [done|]. right. split; [done|]. by eexists.
  - destruct (csv_parse w (StringIO text)) as [e|df] eqn:Hparse.
    + rewrite (read_data_parse_error w (StringIO text) e) by done.
      eexists. split; [done|]. right. split; [done|]. by eexists.
    + assert (Hload : loads w (StringIO text) df) by by constructor.
      destruct (decide (required_columns ⊆ columns df)).
      * rewrite (read_data_loaded w _ df) by done.
        destruct (astype_series w _); eexists; (split; [done|]).
        -- right. split; [done|]. by eexists.
        -- left. eexists. split_and!; [done..|].
           intros m Hm. simpl in Hm. unfold cleaning in Hm.
           rewrite !elem_of_cons, elem_of_nil in Hm.
           destruct Hm as [?|[?|[?|[?|[?|[?|[]]]]]]]; discriminate.
      * rewrite (read_data_schema_error w _ df) by done.
        eexists. split; [done|]. right. split; [done|]. by eexists.
  - rewrite read_data_other.
    eexists. split; [done|]. right. split; [done|]. by eexists.
Qed.

(** [read_data] returns exactly when the source resolves and parses,
    the table has the three required columns, and every row that passes
    the null filters has a finite count. *)
Theorem read_data_returns_iff w src s :
  (∃ out s', read_data w src s = (Return out, s')) ↔
  ∃ df, loads w src df ∧ required_columns ⊆ columns df ∧
        ∀ r, r ∈ rows df → valid w r → finite (coerced w r).
Proof.
  split.
  - intros (out & s' & Hrun).
    apply read_data_Return_inv in Hrun as (df & ? & ? & [series Hcast] & _).
    exists df. split_and!; [done..|]. intros r Hin Hvalid.
    apply (finite_of_numeric w (float_column w df)).
    destruct (astype_series_cells w _ _
                (numeric w (float_column w df) r) Hcast) as [z Hz].
    { by apply list_elem_of_fmap_2, list_elem_of_filter. }
    destruct (numeric_is_number w (float_column w df) r) as [n Hn].
    rewrite Hn in *. apply castable_finite with w. by eexists.
  - intros (df & ? & ? & ?). eexists _, _. by apply read_data_returns.
Qed.

(** A row that passes the null filters with a count that is not finite
    is fatal: all four cleaning calls are made, the cast raises
    [IntCastingNaNError], and [read_data] logs it and exits with code
    1. *)
Theorem non_finite_count_is_fatal w src df r s :
  loads w src df → required_columns ⊆ columns df →
  r ∈ rows df → valid w r → ¬ finite (coerced w r) →
  read_data w src s =
    (Exit 1,
     logged (probe src ++ cleaning ++
             [LoggingError (ReadFailed IntCastingNaNError)]) s).
Proof.
  intros Hload Hcols Hin Hvalid Hinf.
  rewrite (read_data_loaded w src df) by done.
  destruct (astype_series w _) as [e|series] eqn:Hcast.
  - apply astype_series_numbers_inl in Hcast as ->; [done|].
    intros x. apply numeric_is_number.
  - destruct Hinf. apply (finite_of_numeric w (float_column w df)).
    destruct (astype_series_cells w _ _
                (numeric w (float_column w df) r) Hcast) as [z Hz].
    { by apply list_elem_of_fmap_2, list_elem_of_filter. }
    destruct (numeric_is_number w (float_column w df) r) as [n Hn].
    rewrite Hn in *. apply castable_finite with w. by eexists.
Qed.

Lemma non_finite_count_is_fatal_witness :
  let w := sample_world infinite_data in
  let r := record "SpeciesA" "Firmicutes" (Num (Float64 (Inf false))) in
  loads w (Path "taxonomic_data.csv") infinite_data ∧
  required_columns ⊆ columns infinite_data ∧
  r ∈ rows infinite_data ∧
  valid w r ∧
  ¬ finite (coerced w r) ∧
  read_data w (Path "taxonomic_data.csv") initial =
    (Exit 1,
     logged (probe (Path "taxonomic_data.csv") ++ cleaning ++
             [LoggingError (ReadFailed IntCastingNaNError)]) initial).
Proof.
  assert (H1 : loads (sample_world infinite_data) (Path "taxonomic_data.csv")
                 infinite_data) by (by constructor).
  assert (H2 : required_columns ⊆ columns infinite_data) by done.
  assert (H3 : record "SpeciesA" "Firmicutes" (Num (Float64 (Inf false)))
                 ∈ rows infinite_data) by (simpl; left).
  assert (H4 : valid (sample_world infinite_data)
                 (record "SpeciesA" "Firmicutes" (Num (Float64 (Inf false))))).
  { split; [|reflexivity]. unfold notna_on, required_columns.
    by repeat constructor. }
  assert (H5 : ¬ finite (coerced (sample_world infinite_data)
                 (record "SpeciesA" "Firmicutes" (Num (Float64 (Inf false))))))
    by (intros []).
  simpl. split_and!; [done..|].
  exact (non_finite_count_is_fatal (sample_world infinite_data)
           (Path "taxonomic_data.csv") infinite_data _ initial H1 H2 H3 H4 H5).
Defined.

(** ** The loader: the table it returns *)

Lemma filter_all {A} (P : A → Prop) `{!∀ x, Decision (P x)} (l : list A) :
  Forall P l → filter P l = l.
Proof.
  induction 1 as [|x l Hx _ IH]; [done|].
  by rewrite filter_cons, decide_True, IH.
Qed.

Lemma filter_none {A} (P : A → Prop) `{!∀ x, Decision (P x)} (l : list A) :
  Forall (λ x, ¬ P x) l → filter P l = [].
Proof.
  induction 1 as [|x l Hx _ IH]; [done|].
  by rewrite filter_cons, decide_False, IH.
Qed.

Lemma forallb_fmap_Forall {A B} (f : B → bool) (g : A → B) (l : list A) :
  Forall (λ x, f (g x) = true) l → forallb f (g <$> l) = true.
Proof.
  induction 1 as [|x l Hx _ IH]; [done|].
  rewrite fmap_cons. simpl. by rewrite Hx, IH.
Qed.

Section loader_tables.
Context (w : World).

(** A row as the loader returns it: valid, with an integer count that a
    second cleaning leaves as it is. *)
Lemma cleaned_row_clean float r0 :
  valid w r0 →
  (∃ z, astype_cell w (numeric w float r0) = inr (Num (Int64 z))) →
  valid w (cleaned w float r0) ∧
  is_int64 (coerced w (cleaned w float r0)) = true ∧
  cleaned w false (cleaned w float r0) = cleaned w float r0.
Proof.
  intros Hvalid [z Hz].
  assert (Hrange : in_int64 z).
  { destruct (numeric_is_number w float r0) as [n Hn]. rewrite Hn in Hz.
    by apply astype_cell_in_int64 in Hz. }
  assert (Hcount : get "count" (cleaned w float r0) = Num (Int64 z)).
  { rewrite get_cleaned_count. unfold cast. by rewrite Hz. }
  assert (Hcoerced : coerced w (cleaned w float r0) = Num (Int64 z)).
  { unfold coerced. by rewrite Hcount. }
  split_and!.
  - split; [|by rewrite Hcoerced].
    unfold notna_on, required_columns. repeat constructor.
    + rewrite get_cleaned_other by done.
      apply (valid_required w r0); [done|]. unfold required_columns.
      apply elem_of_cons. by left.
    + rewrite get_cleaned_other by done.
      apply (valid_required w r0); [done|]. unfold required_columns.
      apply elem_of_cons. right. apply elem_of_cons. by left.
    + by rewrite Hcount.
  - by rewrite Hcoerced.
  - unfold cleaned at 1. unfold numeric. rewrite Hcoerced.
    unfold cleaned, cast. rewrite Hz. simpl.
    rewrite wrap64_in_range by done. apply insert_insert_eq.
Qed.

End loader_tables.

(** Reading a table that [read_data] has returned gives that table
    again: every row is kept, and every count is the integer it was. *)
Theorem read_data_idempotent w src src' s s' out s0 :
  read_data w src s = (Return out, s') →
  loads w src' out →
  read_data w src' s0 =
    (Return out,
     logged (probe src' ++ cleaning ++ [LoggingInfo DataLoaded]) s0).
Proof.
  intros (df & _ & Hcols & [series Hcast] & -> & _)%read_data_Return_inv Hload.
  set (out := {| columns := columns df;
                 rows := cleaned w (float_column w df) <$> kept w df |}) in *.
  assert (Hclean : Forall (λ r, valid w r ∧
                                is_int64 (coerced w r) = true ∧
                                cleaned w false r = r) (rows out)).
  { simpl. rewrite Forall_fmap, Forall_forall.
    intros r0 [Hvalid Hin]%list_elem_of_filter.
    apply cleaned_row_clean; [done|].
    apply (astype_series_cells w _ _ _ Hcast).
    by apply list_elem_of_fmap_2, list_elem_of_filter. }
  assert (Hkept : kept w out = rows out).
  { apply filter_all. eapply Forall_impl; [exact Hclean|]. by intros r [? _]. }
  assert (Hfloat : float_column w out = false).
  { unfold float_column. apply negb_false_iff.
    rewrite (filter_all (notna_on required_columns)).
    - apply forallb_fmap_Forall. eapply Forall_impl; [exact Hclean|].
      by intros r (_ & ? & _).
    - eapply Forall_impl; [exact Hclean|]. by intros r [[? _] _]. }
  rewrite (read_data_returns w src' out) by
      (try done; intros r Hin _; rewrite Forall_forall in Hclean;
       destruct (Hclean r Hin) as (_ & Hint & _);
       by destruct (coerced w r) as [?|[?|?]]).
  assert (Hrows : cleaned w false <$> rows out = rows out).
  { rewrite <- (list_fmap_id (rows out)) at 2. apply list_fmap_ext.
    intros i r Hr. rewrite Forall_forall in Hclean.
    by apply Hclean, list_elem_of_lookup_2 with i. }
  by rewrite Hkept, Hfloat, Hrows.
Qed.

Lemma read_data_idempotent_witness :
  let w := sample_world valid_data in
  let s' := logged (probe (StringIO "") ++ cleaning ++
                    [LoggingInfo DataLoaded]) initial in
  read_data w (StringIO "") initial = (Return valid_data, s') ∧
  loads w (Path "taxonomic_data.csv") valid_data ∧
  read_data w (Path "taxonomic_data.csv") s' =
    (Return valid_data,
     logged (probe (Path "taxonomic_data.csv") ++ cleaning ++
             [LoggingInfo DataLoaded]) s').
Proof.
  assert (H1 : read_data (sample_world valid_data) (StringIO "") initial =
                 (Return valid_data,
                  logged (probe (StringIO "") ++ cleaning ++
                          [LoggingInfo DataLoaded]) initial))
    by (vm_compute; reflexivity).
  assert (H2 : loads (sample_world valid_data) (Path "taxonomic_data.csv")
                 valid_data) by (by constructor).
  simpl. split_and!; [done..|].
  exact (read_data_idempotent (sample_world valid_data) (StringIO "")
           (Path "taxonomic_data.csv") initial _ valid_data _ H1 H2).
Defined.

(** The table [read_data] returns has the columns of the parsed input,
    and its rows are the input rows that pass the null filters, each
    one once and in input order, with no cell but the count changed:
    no row is added, repeated or moved. *)
Theorem read_data_keeps_rows_in_order w src s out s' :
  read_data w src s = (Return out, s') →
  ∃ df,
    loads w src df ∧
    columns out = columns df ∧
    kept w df `sublist_of` rows df ∧
    Forall2 same_but_count (kept w df) (rows out) ∧
    (length (rows out) ≤ length (rows df))%nat.
Proof.
  intros (df & Hload & _ & _ & -> & _)%read_data_Return_inv.
  exists df. simpl. split_and!; [done..| | |].
  - apply sublist_filter.
  - apply Forall2_fmap_r, Forall_Forall2_diag, Forall_forall.
    intros r _. apply cleaned_same_but_count.
  - rewrite length_fmap. apply length_filter.
Qed.

Lemma read_data_keeps_rows_in_order_witness :
  let w := sample_world invalid_data_type_values in
  ∃ out s',
    read_data w (StringIO "") initial = (Return out, s') ∧
    ∃ df,
      loads w (StringIO "") df ∧
      columns out = columns df ∧
      kept w df `sublist_of` rows df ∧
      Forall2 same_but_count (kept w df) (rows out) ∧
      (length (rows out) ≤ length (rows df))%nat.
Proof.
  simpl. eexists _, _. split; [vm_compute; reflexivity|].
  eapply (read_data_keeps_rows_in_order
            (sample_world invalid_data_type_values) (StringIO "") initial).
  vm_compute; reflexivity.
Defined.

(** A table in which every row is invalid (one without rows among
    them) is no error: [read_data] returns the table without rows, and
    logs that the data was loaded. *)
Theorem no_valid_row_gives_empty_table w src df s :
  loads w src df → required_columns ⊆ columns df →
  (∀ r, r ∈ rows df → invalid w r) →
  read_data w src s =
    (Return {| columns := columns df; rows := [] |},
     logged (probe src ++ cleaning ++ [LoggingInfo DataLoaded]) s).
Proof.
  intros Hload Hcols Hinv.
  assert (Hkept : kept w df = []).
  { apply filter_none, Forall_forall. intros r Hin Hvalid.
    apply valid_iff_not_invalid in Hvalid. destruct Hvalid. by apply Hinv. }
  rewrite (read_data_returns w src df); [by rewrite Hkept|done..|].
  intros r Hin Hvalid.
  apply valid_iff_not_invalid in Hvalid. destruct Hvalid. by apply Hinv.
Qed.

Lemma no_valid_row_gives_empty_table_witness :
  let w := sample_world {| columns := header; rows := [species_only] |} in
  loads w (StringIO "") {| columns := header; rows := [species_only] |} ∧
  required_columns ⊆ header ∧
  (∀ r, r ∈ [species_only] → invalid w r) ∧
  read_data w (StringIO "") initial =
    (Return {| columns := header; rows := [] |},
     logged (probe (StringIO "") ++ cleaning ++ [LoggingInfo DataLoaded])
       initial).
Proof.
  assert (H1 : loads
                 (sample_world
                    {| columns := header; rows := [species_only] |})
                 (StringIO "") {| columns := header; rows := [species_only] |})
    by (by constructor).
  assert (H2 : required_columns ⊆ header) by done.
  assert (H3 : ∀ r, r ∈ [species_only] →
                 invalid (sample_world
                            {| columns := header; rows := [species_only] |}) r).
  { intros r [->|[]%elem_of_nil]%elem_of_cons. right. reflexivity. }
  simpl. split_and!; [done..|].
  exact (no_valid_row_gives_empty_table _ (StringIO "") _ initial H1 H2 H3).
Defined.



(** ** The loader: the other fatal conditions *)

(** When [pd.read_csv] raises, the handler of [read_data] logs the
    exception and exits with code 1; no cleaning call is made. *)
Theorem parse_error_exits w src e s :
  reachable w src → csv_parse w src = inl e →
  read_data w src s =
    (Exit 1, logged (probe src ++ [LoggingError (ReadFailed e)]) s) ∧
  ∀ ev, ev ∈ probe src ++ [LoggingError (ReadFailed e)] → ¬ row_cleaning ev.
Proof.
  intros Hsrc Hparse. split; [by apply read_data_parse_error|].
  intros ev. rewrite elem_of_app, list_elem_of_singleton.
  intros [Hin| ->]; [|by intros []].
  destruct src as [p|text|]; simpl in Hin.
  - apply elem_of_cons in Hin as [->|Hin]; [by intros []|].
    apply list_elem_of_singleton in Hin as ->. by intros [].
  - apply list_elem_of_singleton in Hin as ->. by intros [].
  - by apply elem_of_nil in Hin.
Qed.

Lemma parse_error_exits_witness :
  let w := world_of (λ _, inl (ParserError "Error tokenizing data")) in
  reachable w (Path "taxonomic_data.csv") ∧
  csv_parse w (Path "taxonomic_data.csv") =
    inl (ParserError "Error tokenizing data") ∧
  read_data w (Path "taxonomic_data.csv") initial =
    (Exit 1,
     logged (probe (Path "taxonomic_data.csv") ++
             [LoggingError (ReadFailed (ParserError "Error tokenizing data"))])
       initial) ∧
  ∀ ev, ev ∈ probe (Path "taxonomic_data.csv") ++
             [LoggingError (ReadFailed (ParserError "Error tokenizing data"))] →
        ¬ row_cleaning ev.
Proof.
  simpl. split; [reflexivity|]. split; [reflexivity|].
  apply (parse_error_exits
           (world_of (λ _, inl (ParserError "Error tokenizing data")))
           (Path "taxonomic_data.csv") (ParserError "Error tokenizing data")
           initial); reflexivity.
Defined.

(** An argument that is neither a path nor a stream is rejected before
    anything is looked up or read: the one call made is the error
    message, and the run exits with code 1, whatever the platform. *)
Theorem other_object_is_rejected w s :
  read_data w Other s = (Exit 1, logged [LoggingError InvalidInput] s) ∧
  ∀ w', read_data w' Other s = read_data w Other s.
Proof.
  split; [apply read_data_other|]. intros w'. by rewrite !read_data_other.
Qed.

(** ** The aggregator: further properties *)

Lemma sumZ_Permutation l l' : l ≡ₚ l' → sumZ l = sumZ l'.
Proof.
  induction 1 as [|x l l' _ IH|x y l|l l' l'' _ IH1 _ IH2];
    rewrite ?sumZ_cons; [done|by rewrite IH|lia|congruence].
Qed.

Lemma sumZ_app l l' : sumZ (l ++ l') = sumZ l + sumZ l'.
Proof.
  induction l as [|x l IH]; [done|].
  rewrite <- app_comm_cons, !sumZ_cons, IH. lia.
Qed.

Lemma sum64_app l l' : sum64 (l ++ l') = add64 (sum64 l) (sum64 l').
Proof.
  unfold add64. rewrite !sum64_wrap, sumZ_app.
  by rewrite wrap64_add_l, wrap64_add_r.
Qed.

Lemma group_counts_app p obs obs' :
  group_counts p (obs ++ obs') = group_counts p obs ++ group_counts p obs'.
Proof. unfold group_counts. by rewrite filter_app, fmap_app. Qed.

Lemma group_counts_Permutation p obs obs' :
  obs ≡ₚ obs' → group_counts p obs ≡ₚ group_counts p obs'.
Proof. intros Hp. unfold group_counts. by rewrite Hp. Qed.

Lemma group_counts_absent p obs :
  p ∉ group_keys obs → group_counts p obs = [].
Proof.
  rewrite elem_of_group_keys. intros Hp. unfold group_counts.
  rewrite filter_none; [done|].
  apply Forall_forall. intros o Hin <-. apply Hp. by apply list_elem_of_fmap_2.
Qed.

(** The group keys depend on the set of phyla only. *)
Lemma group_keys_Permutation obs obs' :
  obs ≡ₚ obs' → group_keys obs = group_keys obs'.
Proof.
  intros Hp.
  apply (StronglySorted_unique label_le).
  - apply (StronglySorted_merge_sort _).
  - apply (StronglySorted_merge_sort _).
  - unfold group_keys. rewrite !merge_sort_Permutation.
    apply NoDup_Permutation; [apply NoDup_remove_dups..|].
    intros p. rewrite !elem_of_remove_dups. by rewrite Hp.
Qed.

Lemma length_group_keys obs : (length (group_keys obs) ≤ length obs)%nat.
Proof.
  unfold group_keys. rewrite merge_sort_Permutation.
  rewrite <- (length_fmap phylum obs). apply submseteq_length.
  apply NoDup_submseteq; [apply NoDup_remove_dups|].
  intros p. by rewrite elem_of_remove_dups.
Qed.

Lemma length_summary_of w obs :
  length (summary_of w obs) = length (group_keys obs).
Proof. by rewrite <- (summary_of_phyla w), length_fmap. Qed.

(** A run of [calculate_summary_statistics] never ends in an
    exception.  It returns exactly when its argument is an observation
    table, the information message being its last call; on anything
    else it logs the error and exits with code 1 before any rounding,
    and the store is as it was.  [groupby] is called on a frame only:
    an argument that is no frame fails before any call. *)
Theorem calculate_summary_statistics_returns_or_exits w df s :
  ((∃ obs, heap s !! df = Some (ObservationTable obs)) ∧
   ∃ summary s',
     calculate_summary_statistics w df s = (Return summary, s') ∧
     last (trace s') = Some (LoggingInfo SummaryCalculated)) ∨
  ((∀ obs, heap s !! df ≠ Some (ObservationTable obs)) ∧
   ∃ e evs,
     calculate_summary_statistics w df s =
       (Exit 1, logged (evs ++ [LoggingError (SummaryFailed e)]) s) ∧
     (∀ decimals, Round decimals ∉ evs) ∧
     (GroupbyAgg ∈ evs ↔ is_Some (heap s !! df))).
Proof.
  destruct (heap s !! df) as [[obs|table]|] eqn:Hdf.
  - left. split; [by eexists|]. eexists _, _.
    split; [by apply calculate_summary_statistics_run|]. simpl.
    change [GroupbyAgg; Round 2; LoggingInfo SummaryCalculated]
      with ([GroupbyAgg; Round 2] ++ [LoggingInfo SummaryCalculated]).
    by rewrite (assoc_L (++)), last_snoc.
  - right. split; [done|]. exists (KeyError "count"), [GroupbyAgg].
    split; [by apply calculate_summary_statistics_on_summary with table|].
    split.
    + intros decimals [?|[]%elem_of_nil]%elem_of_cons. discriminate.
    + split; [by eexists|]. intros _. apply elem_of_cons. by left.
  - right. split; [done|]. exists AttributeError, [].
    split; [by apply calculate_summary_statistics_no_frame|]. split.
    + intros decimals []%elem_of_nil.
    + split; [by intros ?%elem_of_nil|]. by intros [? ?].
Qed.

(** The aggregator does not accept its own result: called on the
    summary it has returned, it finds no [count] column, logs the
    [KeyError] and exits with code 1. *)
Theorem summary_is_not_aggregated_again w df obs s :
  heap s !! df = Some (ObservationTable obs) →
  ∃ summary s',
    calculate_summary_statistics w df s = (Return summary, s') ∧
    calculate_summary_statistics w summary s' =
      (Exit 1,
       logged [GroupbyAgg; LoggingError (SummaryFailed (KeyError "count"))]
         s').
Proof.
  intros Hdf. eexists _, _.
  split; [by apply calculate_summary_statistics_run|].
  apply calculate_summary_statistics_on_summary with (summary_of w obs).
  apply lookup_insert_eq.
Qed.

Lemma summary_is_not_aggregated_again_witness :
  heap (holding valid_observations) !! 1%positive =
    Some (ObservationTable valid_observations) ∧
  ∃ summary s',
    calculate_summary_statistics (sample_world valid_data) 1%positive
      (holding valid_observations) = (Return summary, s') ∧
    calculate_summary_statistics (sample_world valid_data) summary s' =
      (Exit 1,
       logged [GroupbyAgg; LoggingError (SummaryFailed (KeyError "count"))]
         s').
Proof.
  split; [reflexivity|].
  apply (summary_is_not_aggregated_again (sample_world valid_data) 1%positive
           valid_observations (holding valid_observations)).
  reflexivity.
Defined.

(** The phyla and the totals of the summary do not depend on the order
    of the rows of the observation table. *)
Theorem summary_ignores_row_order w df df' obs obs' s s0 :
  obs ≡ₚ obs' →
  heap s !! df = Some (ObservationTable obs) →
  heap s0 !! df' = Some (ObservationTable obs') →
  ∃ summary table s' summary' table' s0',
    calculate_summary_statistics w df s = (Return summary, s') ∧
    heap s' !! summary = Some (SummaryTable table) ∧
    calculate_summary_statistics w df' s0 = (Return summary', s0') ∧
    heap s0' !! summary' = Some (SummaryTable table') ∧
    group_phylum <$> table = group_phylum <$> table' ∧
    total_species_count <$> table = total_species_count <$> table'.
Proof.
  intros Hp Hdf Hdf'.
  eexists _, (summary_of w obs), _, _, (summary_of w obs'), _.
  split; [by apply calculate_summary_statistics_run|].
  split; [apply lookup_insert_eq|].
  split; [by apply calculate_summary_statistics_run|].
  split; [apply lookup_insert_eq|].
  rewrite !summary_of_phyla, !summary_of_totals.
  rewrite (group_keys_Permutation obs obs' Hp). split; [done|].
  apply list_fmap_ext. intros _ k _. rewrite !sum64_wrap. f_equal.
  by apply sumZ_Permutation, group_counts_Permutation.
Qed.

Lemma summary_ignores_row_order_witness :
  let w := sample_world valid_data in
  valid_observations ≡ₚ reverse valid_observations ∧
  heap (holding valid_observations) !! 1%positive =
    Some (ObservationTable valid_observations) ∧
  heap (holding (reverse valid_observations)) !! 1%positive =
    Some (ObservationTable (reverse valid_observations)) ∧
  ∃ summary table s' summary' table' s0',
    calculate_summary_statistics w 1%positive (holding valid_observations) =
      (Return summary, s') ∧
    heap s' !! summary = Some (SummaryTable table) ∧
    calculate_summary_statistics w 1%positive
      (holding (reverse valid_observations)) = (Return summary', s0') ∧
    heap s0' !! summary' = Some (SummaryTable table') ∧
    group_phylum <$> table = group_phylum <$> table' ∧
    total_species_count <$> table = total_species_count <$> table'.
Proof.
  assert (H1 : valid_observations ≡ₚ reverse valid_observations)
    by (symmetry; apply reverse_Permutation).
  assert (H2 : heap (holding valid_observations) !! 1%positive =
                 Some (ObservationTable valid_observations)) by reflexivity.
  assert (H3 : heap (holding (reverse valid_observations)) !! 1%positive =
                 Some (ObservationTable (reverse valid_observations)))
    by reflexivity.
  simpl. split_and!; [done..|].
  exact (summary_ignores_row_order (sample_world valid_data) 1%positive
           1%positive _ _ _ _ H1 H2 H3).
Defined.

(** Aggregating a table made of two parts: a phylum is in the summary
    exactly when it is in the summary of one of the parts, and its
    total is the 64-bit sum of the totals it has in the parts, or the
    total of the one part it occurs in. *)
Theorem summary_of_two_parts w df df1 df2 obs1 obs2 s s1 s2 :
  heap s !! df = Some (ObservationTable (obs1 ++ obs2)) →
  heap s1 !! df1 = Some (ObservationTable obs1) →
  heap s2 !! df2 = Some (ObservationTable obs2) →
  ∃ summary table s' summary1 table1 s1' summary2 table2 s2',
    calculate_summary_statistics w df s = (Return summary, s') ∧
    heap s' !! summary = Some (SummaryTable table) ∧
    calculate_summary_statistics w df1 s1 = (Return summary1, s1') ∧
    heap s1' !! summary1 = Some (SummaryTable table1) ∧
    calculate_summary_statistics w df2 s2 = (Return summary2, s2') ∧
    heap s2' !! summary2 = Some (SummaryTable table2) ∧
    (∀ p, p ∈ group_phylum <$> table ↔
          p ∈ group_phylum <$> table1 ∨ p ∈ group_phylum <$> table2) ∧
    (∀ e, e ∈ table →
       (∀ e1 e2, e1 ∈ table1 → e2 ∈ table2 →
          group_phylum e1 = group_phylum e →
          group_phylum e2 = group_phylum e →
          total_species_count e =
            add64 (total_species_count e1) (total_species_count e2)) ∧
       (∀ e1, e1 ∈ table1 → group_phylum e1 = group_phylum e →
          group_phylum e ∉ group_phylum <$> table2 →
          total_species_count e = total_species_count e1) ∧
       (∀ e2, e2 ∈ table2 → group_phylum e2 = group_phylum e →
          group_phylum e ∉ group_phylum <$> table1 →
          total_species_count e = total_species_count e2)).
Proof.
  intros Hdf Hdf1 Hdf2.
  eexists _, (summary_of w (obs1 ++ obs2)), _,
          _, (summary_of w obs1), _, _, (summary_of w obs2), _.
  split; [by apply calculate_summary_statistics_run|].
  split; [apply lookup_insert_eq|].
  split; [by apply calculate_summary_statistics_run|].
  split; [apply lookup_insert_eq|].
  split; [by apply calculate_summary_statistics_run|].
  split; [apply lookup_insert_eq|].
  rewrite !summary_of_phyla. split.
  - intros p. rewrite !elem_of_group_keys, fmap_app. apply elem_of_app.
  - intros e (_ & -> & _)%elem_of_summary_of.
    rewrite group_counts_app, sum64_app. split_and!.
    + intros e1 e2 (_ & -> & _)%elem_of_summary_of
        (_ & -> & _)%elem_of_summary_of -> ->. done.
    + intros e1 (_ & -> & _)%elem_of_summary_of -> Hp.
      rewrite (group_counts_absent _ obs2 Hp). unfold add64, sum64 at 2.
      simpl. rewrite Z.add_0_r, sum64_wrap, wrap64_in_range; [done|].
      apply wrap64_range.
    + intros e2 (_ & -> & _)%elem_of_summary_of -> Hp.
      rewrite (group_counts_absent _ obs1 Hp). unfold add64, sum64 at 1.
      simpl. rewrite sum64_wrap, wrap64_in_range; [done|].
      apply wrap64_range.
Qed.

Lemma summary_of_two_parts_witness :
  let w := sample_world valid_data in
  let obs1 := take 3 valid_observations in
  let obs2 := drop 3 valid_observations in
  heap (holding (obs1 ++ obs2)) !! 1%positive =
    Some (ObservationTable (obs1 ++ obs2)) ∧
  heap (holding obs1) !! 1%positive = Some (ObservationTable obs1) ∧
  heap (holding obs2) !! 1%positive = Some (ObservationTable obs2) ∧
  ∃ summary table s' summary1 table1 s1' summary2 table2 s2',
    calculate_summary_statistics w 1%positive (holding (obs1 ++ obs2)) =
      (Return summary, s') ∧
    heap s' !! summary = Some (SummaryTable table) ∧
    calculate_summary_statistics w 1%positive (holding obs1) =
      (Return summary1, s1') ∧
    heap s1' !! summary1 = Some (SummaryTable table1) ∧
    calculate_summary_statistics w 1%positive (holding obs2) =
      (Return summary2, s2') ∧
    heap s2' !! summary2 = Some (SummaryTable table2) ∧
    (∀ p, p ∈ group_phylum <$> table ↔
          p ∈ group_phylum <$> table1 ∨ p ∈ group_phylum <$> table2) ∧
    (∀ e, e ∈ table →
       (∀ e1 e2, e1 ∈ table1 → e2 ∈ table2 →
          group_phylum e1 = group_phylum e →
          group_phylum e2 = group_phylum e →
          total_species_count e =
            add64 (total_species_count e1) (total_species_count e2)) ∧
       (∀ e1, e1 ∈ table1 → group_phylum e1 = group_phylum e →
          group_phylum e ∉ group_phylum <$> table2 →
          total_species_count e = total_species_count e1) ∧
       (∀ e2, e2 ∈ table2 → group_phylum e2 = group_phylum e →
          group_phylum e ∉ group_phylum <$> table1 →
          total_species_count e = total_species_count e2)).
Proof.
  simpl. split_and!; [reflexivity..|].
  exact (summary_of_two_parts (sample_world valid_data) 1%positive 1%positive
           1%positive (take 3 valid_observations) (drop 3 valid_observations)
           (holding (take 3 valid_observations ++ drop 3 valid_observations))
           (holding (take 3 valid_observations))
           (holding (drop 3 valid_observations))
           eq_refl eq_refl eq_refl).
Defined.

(** The summary has at most as many rows as the observation table, and
    it is empty only when the observation table is. *)
Theorem summary_rows_bounded w df obs s :
  heap s !! df = Some (ObservationTable obs) →
  ∃ summary table s',
    calculate_summary_statistics w df s = (Return summary, s') ∧
    heap s' !! summary = Some (SummaryTable table) ∧
    (length table ≤ length obs)%nat ∧
    (table = [] ↔ obs = []).
Proof.
  intros Hdf. eexists _, (summary_of w obs), _.
  split; [by apply calculate_summary_statistics_run|].
  split; [apply lookup_insert_eq|].
  split; [rewrite length_summary_of; apply length_group_keys|].
  split.
  - intros Hnil. destruct obs as [|o obs]; [done|].
    assert (phylum o ∈ group_keys (o :: obs)) as Hin.
    { apply elem_of_group_keys. rewrite fmap_cons. apply elem_of_cons. by left. }
    rewrite <- (summary_of_phyla w), Hnil in Hin. by apply elem_of_nil in Hin.
  - by intros ->.
Qed.

Lemma summary_rows_bounded_witness :
  heap (holding valid_observations) !! 1%positive =
    Some (ObservationTable valid_observations) ∧
  ∃ summary table s',
    calculate_summary_statistics (sample_world valid_data) 1%positive
      (holding valid_observations) = (Return summary, s') ∧
    heap s' !! summary = Some (SummaryTable table) ∧
    (length table ≤ length valid_observations)%nat ∧
    (table = [] ↔ valid_observations = []).
Proof.
  split; [reflexivity|].
  apply (summary_rows_bounded (sample_world valid_data) 1%positive
           valid_observations (holding valid_observations)).
  reflexivity.
Defined.



(** ** The sink *)

Section sink_facts.
Context (w : World).

Lemma save_results_no_frame df p s :
  heap s !! df = None →
  save_results w df p s =
    (Exit 1, logged [LoggingError (SaveFailed AttributeError)] s).
Proof.
  intros Hdf. unfold save_results, try_except, to_csv, deref.
  unfold logging_error, logging_info, sys_exit, raise, emit, mret, M_ret,
    mbind, M_bind.
  with_strategy transparent [logged] (unfold logged); simpl.
  by rewrite Hdf.
Qed.

Lemma generate_bar_chart_no_summary df p s :
  (∀ sm, heap s !! df ≠ Some (SummaryTable sm)) →
  ∃ e, generate_bar_chart w df p s =
         (Exit 1, logged [PltFigure; LoggingError (ChartFailed e)] s).
Proof.
  intros Hdf.
  unfold generate_bar_chart, try_except, plt_bar, plt_savefig, deref.
  unfold logging_error, logging_info, sys_exit, raise, emit, mret, M_ret,
    mbind, M_bind.
  with_strategy transparent [logged] (unfold logged); simpl.
  destruct (heap s !! df) as [[obs|sm]|] eqn:Hl; simpl.
  - exists (KeyError "total_species_count"). by rewrite <- (assoc_L (++)).
  - by destruct (Hdf sm).
  - exists AttributeError. by rewrite <- (assoc_L (++)).
Qed.

End sink_facts.

Ltac members H :=
  repeat (apply elem_of_cons in H as [H|H]; [try discriminate H|]);
  try (by apply elem_of_nil in H).

(** A run of [save_results] never ends in an exception and never
    changes the store.  It returns exactly when its argument is a frame
    and the file can be written; otherwise it exits with code 1 after
    the error message.  [to_csv] is called on any frame, summary or
    not, and only on a frame. *)
Theorem save_results_returns_or_exits w df p s :
  ∃ evs,
    (save_results w df p s).2 = logged evs s ∧
    ((save_results w df p s).1 = Return tt ∨
     (save_results w df p s).1 = Exit 1) ∧
    ((save_results w df p s).1 = Return tt ↔
     is_Some (heap s !! df) ∧ file_write w p = None) ∧
    ((∃ table, ToCsv p table ∈ evs) ↔ is_Some (heap s !! df)) ∧
    ((save_results w df p s).1 = Exit 1 →
     ∃ e, last evs = Some (LoggingError (SaveFailed e))).
Proof.
  destruct (heap s !! df) as [table|] eqn:Hdf.
  - rewrite (save_results_run w df table p s Hdf).
    destruct (file_write w p) as [e|]; eexists; (split; [done|]); simpl.
    + split_and!; [by right| |split; [by eexists|]; intros _;
        exists table; apply elem_of_cons; by left|intros _; by eexists].
      split; [done|]. by intros [_ ?].
    + split_and!; [by left| |split; [by eexists|]; intros _;
        exists table; apply elem_of_cons; by left|done].
      split; [by eauto|done].
  - rewrite (save_results_no_frame w df p s Hdf).
    eexists; (split; [done|]); simpl.
    split_and!; [by right| | |intros _; by eexists].
    + split; [done|]. by intros [[? ?] _].
    + split; [|by intros [? ?]].
      intros [table Hin]. members Hin.
Qed.

(** A run of [generate_bar_chart] never ends in an exception and never
    changes the store.  It opens a figure first; it draws and saves
    only for a summary table, and returns exactly when the image can be
    written as well; otherwise it exits with code 1.  The figure is
    closed exactly when the run returns. *)
Theorem generate_bar_chart_returns_or_exits w df p s :
  ∃ evs,
    (generate_bar_chart w df p s).2 = logged evs s ∧
    ((generate_bar_chart w df p s).1 = Return tt ∨
     (generate_bar_chart w df p s).1 = Exit 1) ∧
    ((generate_bar_chart w df p s).1 = Return tt ↔
     (∃ sm, heap s !! df = Some (SummaryTable sm)) ∧ file_write w p = None) ∧
    head evs = Some PltFigure ∧
    (PltSavefig p ∈ evs ↔ ∃ sm, heap s !! df = Some (SummaryTable sm)) ∧
    (PltClose ∈ evs ↔ (generate_bar_chart w df p s).1 = Return tt).
Proof.
  destruct (heap s !! df) as [[obs|sm]|] eqn:Hdf.
  - destruct (generate_bar_chart_no_summary w df p s) as [e ->];
      [congruence|].
    eexists; (split; [done|]); simpl.
    split_and!; [by right| |done| |].
    + split; [done|]. by intros [[? ?] _].
    + split; [|by intros [? ?]]. intros Hin. members Hin.
    + split; [|done]. intros Hin. members Hin.
  - rewrite (generate_bar_chart_run w df sm p s Hdf).
    destruct (file_write w p) as [e|]; eexists; (split; [done|]); simpl.
    + split_and!; [by right| |done| |].
      * split; [done|]. by intros [_ ?].
      * split; [by eexists|]. intros _.
        do 3 (apply elem_of_cons; right). apply elem_of_cons. by left.
      * split; [|done]. intros Hin. members Hin.
    + split_and!; [by left| |done| |].
      * split; [by eauto|done].
      * split; [by eexists|]. intros _.
        do 3 (apply elem_of_cons; right). apply elem_of_cons. by left.
      * split; [done|]. intros _.
        do 4 (apply elem_of_cons; right). apply elem_of_cons. by left.
  - destruct (generate_bar_chart_no_summary w df p s) as [e ->];
      [congruence|].
    eexists; (split; [done|]); simpl.
    split_and!; [by right| |done| |].
    + split; [done|]. by intros [[? ?] _].
    + split; [|by intros [? ?]]. intros Hin. members Hin.
    + split; [|done]. intros Hin. members Hin.
Qed.

(** Steps 2 to 4 of [main] on an observation table: the summary is
    computed, written and drawn, one stage after the other.  The file
    and the chart receive the same summary, the rows of the one in the
    order of the bars of the other.  When the file cannot be written the
    run exits with code 1 before a figure is opened; when the image
    cannot be written it exits with code 1 after the file was saved.  In
    every case the store holds the summary as the one new object. *)
Theorem summary_is_saved_then_drawn w df obs output_csv output_image s :
  heap s !! df = Some (ObservationTable obs) →
  (summary_stats ← calculate_summary_statistics w df;
   save_results w summary_stats output_csv;;
   generate_bar_chart w summary_stats output_image) s =
  let table := summary_of w obs in
  let s' := summarised w (fresh (dom (heap s))) obs s in
  let bars :=
    PltBar (group_phylum <$> table) (total_species_count <$> table) in
  match file_write w output_csv, file_write w output_image with
  | Some e, _ =>
      (Exit 1,
       logged [ToCsv output_csv (SummaryTable table);
               LoggingError (SaveFailed e)] s')
  | None, Some e =>
      (Exit 1,
       logged [ToCsv output_csv (SummaryTable table);
               LoggingInfo (ResultsSaved output_csv);
               PltFigure; bars; PltDecorate; PltSavefig output_image;
               LoggingError (ChartFailed e)] s')
  | None, None =>
      (Return tt,
       logged [ToCsv output_csv (SummaryTable table);
               LoggingInfo (ResultsSaved output_csv);
               PltFigure; bars; PltDecorate; PltSavefig output_image;
               PltClose; LoggingInfo (ChartSaved output_image)] s')
  end.
Proof.
  intros Hdf. rewrite bind_run.
  rewrite (calculate_summary_statistics_run w df obs s Hdf).
  set (l := fresh (dom (heap s))). set (s' := summarised w l obs s).
  assert (Hl : heap s' !! l = Some (SummaryTable (summary_of w obs)))
    by apply lookup_insert_eq.
  rewrite bind_run, (save_results_run w l _ output_csv s' Hl).
  destruct (file_write w output_csv) as [e|]; [done|].
  rewrite (generate_bar_chart_run w l (summary_of w obs) output_image)
    by (by rewrite heap_logged).
  simpl. destruct (file_write w output_image); by rewrite logged_logged.
Qed.

Lemma summary_is_saved_then_drawn_witness :
  let w := sample_world valid_data in
  let s := holding valid_observations in
  let table := summary_of w valid_observations in
  heap s !! 1%positive = Some (ObservationTable valid_observations) ∧
  (summary_stats ← calculate_summary_statistics w 1%positive;
   save_results w summary_stats "phylum_summary.csv";;
   generate_bar_chart w summary_stats "phylum_species_count.png") s =
  (Return tt,
   logged [ToCsv "phylum_summary.csv" (SummaryTable table);
           LoggingInfo (ResultsSaved "phylum_summary.csv");
           PltFigure;
           PltBar (group_phylum <$> table) (total_species_count <$> table);
           PltDecorate; PltSavefig "phylum_species_count.png";
           PltClose; LoggingInfo (ChartSaved "phylum_species_count.png")]
     (summarised w (fresh (dom (heap s))) valid_observations s)).
Proof.
  simpl. split; [reflexivity|].
  apply (summary_is_saved_then_drawn (sample_world valid_data) 1%positive
           valid_observations "phylum_summary.csv"
           "phylum_species_count.png" (holding valid_observations)).
  reflexivity.
Defined.
